(** * version_restrictor.py: the fetcher of active EKS versions and the
      updater of the Terraform variables file, embedded and verified.

    The script is a linear pipeline: fetch the release feed, keep the
    releases that are not end-of-life, sort them, rewrite two regions of a
    Terraform file found by regular expressions, write the file back.

    Layout of this development:
    - [Py]: the fragment of the Python data model the script relies on
      (text as sequences of code points, parsed JSON values, [str.split],
      [str.join], list comparison, the stable [sorted]);
    - [Re]: the fragment of the [re] module used by the two patterns of the
      script, as a backtracking matcher;
    - [Script]: the three functions of the source file, in a small monad for
      the log, the file system and the three ways a call can end;
    - the fetcher: the two shapes of answer, the filter, the failures;
    - what the matcher computes on the two patterns, and the two regions
      in terms of the text;
    - the updater: the list region, the message region, what is left
      alone, the sort step, a second run, a file without the message.

    A file is modelled by the text that reading it gives and that writing
    it stores; the translation of line ends by text-mode I/O and the errors
    of the operating system are outside the model. *)

From Stdlib Require Import ZArith NArith Ascii String List Bool Lia.
From Stdlib Require Import Sorting.Permutation Sorting.Sorted.
From stdpp Require Import base option list gmap strings.

Set Default Proof Using "Type".
Set Warnings "-register-all".

(* ===================================================================== *)
(** ** Python values *)
(* ===================================================================== *)

Module Py.

(** A Python [str] is a sequence of Unicode code points. *)
Definition char : Type := N.
Abbreviation str := (list char).

Definition chr (a : ascii) : char := N_of_ascii a.
Definition codes (s : string) : str := map N_of_ascii (list_ascii_of_string s).

Definition c_newline : char := 10%N.
Definition c_dquote : char := 34%N.
Definition c_dot : char := 46%N.
Definition c_equals : char := 61%N.
Definition c_rbracket : char := 93%N.

(** [f'"{v}"']: the text between two double quotes. *)
Definition quoted (s : str) : str := c_dquote :: s ++ [c_dquote].

(** What [json.loads] returns. A dict is kept as the list of its items;
    [dict_get] reads the first item with the key, so every list denotes a
    dict. The value of a number plays no role in the script. *)
Inductive json : Type :=
| JNull
| JBool (b : bool)
| JNum (n : Z)
| JStr (s : str)
| JArr (items : list json)
| JObj (fields : list (str * json)).

Fixpoint dict_get (k : str) (fields : list (str * json)) : option json :=
  match fields with
  | [] => None
  | (k', v) :: rest => if decide (k = k') then Some v else dict_get k rest
  end.

Definition dict_has (k : str) (fields : list (str * json)) : bool :=
  match dict_get k fields with Some _ => true | None => false end.

Definition is_str (v : json) : bool :=
  match v with JStr _ => true | _ => false end.

Definition is_dict (v : json) : bool :=
  match v with JObj _ => true | _ => false end.

(** [sub in s] on two strings: [sub] occurs in [s]. *)
Fixpoint is_prefix (p s : str) : bool :=
  match p, s with
  | [], _ => true
  | a :: p', b :: s' => N.eqb a b && is_prefix p' s'
  | _ :: _, [] => false
  end.

Fixpoint occurs_in (sub s : str) : bool :=
  is_prefix sub s ||
  match s with
  | [] => false
  | _ :: s' => occurs_in sub s'
  end.

(** The exceptions that the script can meet, and the three ways a call
    ends: it returns, it raises, or [sys.exit] ends the process
    ([SystemExit] is not an [Exception], no handler of the script stops
    it). *)
Inductive exn : Type :=
| KeyError | TypeError | AttributeError | ValueError
| UnicodeDecodeError | URLError | JSONDecodeError | OSError.

Inductive outcome (A : Type) : Type :=
| Return (a : A)
| Raise (e : exn)
| Exit (status : Z).
Arguments Return {A} a.
Arguments Raise {A} e.
Arguments Exit {A} status.

(** [k == v] for a string [k]: only an equal string is equal to it. *)
Definition str_equal (k : str) (v : json) : bool :=
  match v with JStr s => bool_decide (k = s) | _ => false end.

(** [k in v] for a string [k]: key of a dict, item of a list, substring of
    a string; the other JSON values are not containers. *)
Definition py_in (k : str) (v : json) : outcome bool :=
  match v with
  | JObj fields => Return (dict_has k fields)
  | JArr items => Return (existsb (str_equal k) items)
  | JStr s => Return (occurs_in k s)
  | JNull | JBool _ | JNum _ => Raise TypeError
  end.

(** [v[k]] for a string [k]: only a dict can be indexed by a string. *)
Definition py_getitem (v : json) (k : str) : outcome json :=
  match v with
  | JObj fields =>
      match dict_get k fields with
      | Some x => Return x
      | None => Raise KeyError
      end
  | _ => Raise TypeError
  end.

(** [for x in v]: the items of a list, the keys of a dict, the characters
    of a string. *)
Definition py_iter (v : json) : outcome (list json) :=
  match v with
  | JArr items => Return items
  | JObj fields => Return (map (fun kv => JStr (fst kv)) fields)
  | JStr s => Return (map (fun c => JStr [c]) s)
  | JNull | JBool _ | JNum _ => Raise TypeError
  end.

(** [v.get(k)]: a dict method; a missing key gives [None]. *)
Definition py_get (v : json) (k : str) : outcome json :=
  match v with
  | JObj fields =>
      Return (match dict_get k fields with Some x => x | None => JNull end)
  | _ => Raise AttributeError
  end.

(** [v is False] *)
Definition is_False (v : json) : bool :=
  match v with JBool false => true | _ => false end.

(** *** Strings and lists *)

(** [s.split(sep)] for a one-character separator: always at least one
    piece, empty pieces are kept. *)
Fixpoint split (sep : char) (s : str) : list str :=
  match s with
  | [] => [[]]
  | c :: s' =>
      if N.eqb c sep then [] :: split sep s'
      else match split sep s' with
           | piece :: rest => (c :: piece) :: rest
           | [] => [[c]]
           end
  end.

(** [sep.join(pieces)] *)
Fixpoint join (sep : str) (pieces : list str) : str :=
  match pieces with
  | [] => []
  | [x] => x
  | x :: rest => x ++ sep ++ join sep rest
  end.

(** [a < b] on two sequences: the first place where they differ decides,
    a proper prefix is smaller. Used on lists of integers (the numeric
    keys) and on strings (code point order). *)
Fixpoint seq_lt {A : Type} (lt eqb : A -> A -> bool) (a b : list A) : bool :=
  match a, b with
  | [], [] => false
  | [], _ :: _ => true
  | _ :: _, [] => false
  | x :: a', y :: b' => if eqb x y then seq_lt lt eqb a' b' else lt x y
  end.

Definition key_lt : list Z -> list Z -> bool := seq_lt Z.ltb Z.eqb.
Definition str_lt : str -> str -> bool := seq_lt N.ltb N.eqb.

(** [sorted(l, key=...)] on items paired with their keys. The builtin is
    stable and only asks [<] of two keys; on a total order there is one
    stable sorted arrangement, computed here by insertion: an item goes
    before the items already placed (which followed it in the input) unless
    they are strictly smaller. *)
Section sorted.
Context {K A : Type} (lt : K -> K -> bool).

Fixpoint insert (x : K * A) (l : list (K * A)) : list (K * A) :=
  match l with
  | [] => [x]
  | y :: l' => if lt (fst y) (fst x) then y :: insert x l' else x :: l
  end.

Fixpoint sorted_pairs (l : list (K * A)) : list (K * A) :=
  match l with
  | [] => []
  | x :: l' => insert x (sorted_pairs l')
  end.

Definition sorted (l : list (K * A)) : list A := map snd (sorted_pairs l).
End sorted.

(** *** The builtin [int] on a string

    The script calls [int] on the pieces of a version. What the builtin
    accepts depends on the interpreter (digits of every script, a bound on
    the number of digits), so the script is verified for any function
    [int : str -> option Z], [None] standing for [ValueError]. [int_ascii]
    is the builtin on texts of ASCII characters, to run the script on
    concrete versions: blanks around, a sign, decimal digits, single
    underscores between digits. *)
Definition digit_val (c : char) : option Z :=
  if (48 <=? c)%N && (c <=? 57)%N then Some (Z.of_N c - 48)%Z else None.

Definition is_c_space (c : char) : bool :=
  ((9 <=? c)%N && (c <=? 13)%N) || N.eqb c 32.

Fixpoint lstrip (s : str) : str :=
  match s with
  | c :: s' => if is_c_space c then lstrip s' else s
  | [] => []
  end.

Definition strip (s : str) : str := rev (lstrip (rev (lstrip s))).

Fixpoint digits_value (acc : Z) (after_digit : bool) (s : str) : option Z :=
  match s with
  | [] => if after_digit then Some acc else None
  | c :: s' =>
      match digit_val c with
      | Some d => digits_value (10 * acc + d)%Z true s'
      | None =>
          if N.eqb c 95 && after_digit then digits_value acc false s'
          else None
      end
  end.

Definition int_ascii (s : str) : option Z :=
  match strip s with
  | c :: ds =>
      if N.eqb c 43 then digits_value 0 false ds
      else if N.eqb c 45 then Z.opp <$> digits_value 0 false ds
      else digits_value 0 false (c :: ds)
  | [] => None
  end.

(** The value of a plain numeral, one or more ASCII digits: what every
    [int] must agree with. *)
Fixpoint numeral_value (acc : Z) (s : str) : option Z :=
  match s with
  | [] => Some acc
  | c :: s' =>
      match digit_val c with
      | Some d => numeral_value (10 * acc + d)%Z s'
      | None => None
      end
  end.

Definition numeral (s : str) : option Z :=
  match s with [] => None | _ => numeral_value 0 s end.

Definition reads_numerals (int : str -> option Z) : Prop :=
  forall s z, numeral s = Some z -> int s = Some z.

End Py.

(* ===================================================================== *)
(** ** The fragment of [re] used by the script *)
(* ===================================================================== *)

Module Re.
Import Py.

(** [\s] on a [str] pattern: the Unicode white space characters. *)
Definition is_space (c : char) : bool :=
  ((9 <=? c)%N && (c <=? 13)%N) || ((28 <=? c)%N && (c <=? 32)%N)
  || N.eqb c 133 || N.eqb c 160 || N.eqb c 5760
  || ((8192 <=? c)%N && (c <=? 8202)%N)
  || N.eqb c 8232 || N.eqb c 8233 || N.eqb c 8239 || N.eqb c 8287
  || N.eqb c 12288.

(** [.] without the DOTALL flag: every character but the line feed. *)
Definition not_newline (c : char) : bool := negb (N.eqb c c_newline).

(** The two patterns of the script are sequences of: a literal character,
    a starred class of characters (lazy [*?] or greedy [*]), and the
    parentheses of a numbered group. *)
Inductive item : Type :=
| Lit (c : char)
| Lazy (p : char -> bool)
| Greedy (p : char -> bool)
| Open (g : nat)
| Close (g : nat).

Definition regex : Type := list item.

Definition lits (s : str) : regex := map Lit s.

(** The groups met so far: where each was opened, and the span of each
    closed one. *)
Record groups : Type := Groups {
  opened : list (nat * nat);
  closed : list (nat * (nat * nat))
}.

Definition no_groups : groups := Groups [] [].

Fixpoint assoc {V : Type} (g : nat) (l : list (nat * V)) : option V :=
  match l with
  | [] => None
  | (g', v) :: rest => if Nat.eqb g g' then Some v else assoc g rest
  end.

Definition open_group (g i : nat) (c : groups) : groups :=
  Groups ((g, i) :: opened c) (closed c).

Definition close_group (g i : nat) (c : groups) : groups :=
  match assoc g (opened c) with
  | Some start => Groups (opened c) ((g, (start, i)) :: closed c)
  | None => c
  end.

(** The backtracking matcher: [match_here r s i c] matches [r] against the
    text [s], which starts at position [i] of the searched string, and
    returns the end position and the groups of the first way to match in
    the order the engine tries them. A lazy star first tries to go on
    without one more character, a greedy star first takes one more. *)
Fixpoint match_here (r : regex) (s : str) (i : nat) (c : groups)
  : option (nat * groups) :=
  match r with
  | [] => Some (i, c)
  | Lit a :: r' =>
      match s with
      | x :: s' => if N.eqb x a then match_here r' s' (S i) c else None
      | [] => None
      end
  | Lazy p :: r' =>
      (fix lazy (s : str) (i : nat) {struct s} : option (nat * groups) :=
         match match_here r' s i c with
         | Some m => Some m
         | None =>
             match s with
             | x :: s' => if p x then lazy s' (S i) else None
             | [] => None
             end
         end) s i
  | Greedy p :: r' =>
      (fix greedy (s : str) (i : nat) {struct s} : option (nat * groups) :=
         match s with
         | x :: s' =>
             if p x then
               match greedy s' (S i) with
               | Some m => Some m
               | None => match_here r' s i c
               end
             else match_here r' s i c
         | [] => match_here r' s i c
         end) s i
  | Open g :: r' => match_here r' s i (open_group g i c)
  | Close g :: r' => match_here r' s i (close_group g i c)
  end.

(** A match object. *)
Record rmatch : Type := Match {
  m_start : nat;
  m_end : nat;
  m_groups : list (nat * (nat * nat))
}.

(** [m.span(g)]. Every group of the two patterns of the script takes part
    in every match; the default stands for a group that did not. *)
Definition span (m : rmatch) (g : nat) : nat * nat :=
  match g with
  | O => (m_start m, m_end m)
  | _ => match assoc g (m_groups m) with Some sp => sp | None => (0, 0) end
  end.

(** [re.search]: the match at the leftmost position that has one. *)
Fixpoint search_from (r : regex) (s : str) (i : nat) : option rmatch :=
  match match_here r s i no_groups with
  | Some (e, c) => Some (Match i e (closed c))
  | None =>
      match s with
      | [] => None
      | _ :: s' => search_from r s' (S i)
      end
  end.

Definition search (r : regex) (s : str) : option rmatch := search_from r s 0.

End Re.

(* ===================================================================== *)
(** ** The script *)
(* ===================================================================== *)

Module Script.
Import Py Re.

(** *** The world of a run: the files and the log *)

Inductive level : Type := INFO | WARNING | ERROR.

(** The messages of the script, one constructor for each call of the
    logger, in the order of the source. *)
Inductive message : Type :=
| FetchingVersions
| UnexpectedStructure
| NoActiveVersions
| FoundActiveVersions (active : list json)
| FetchFailed (e : exn)
| FileNotFound (path : string)
| LexicalFallback
| NoContainsBlock (path : string)
| NoErrorMessage
| Updated (path : string)
| UnexpectedError (e : exn)
| NoVersionsRetrieved
| ScriptFailed (e : exn).

(** The files are the text files that exist, by path, each with the text
    that reading it gives and writing it stores. Every file that exists
    can be read and written: the I/O errors of the operating system are
    outside this model. *)
Record world : Type := World {
  files : gmap string str;
  log : list (level * message)
}.

Definition M (A : Type) : Type := world -> outcome A * world.

Definition ret {A : Type} (a : A) : M A := fun w => (Return a, w).

Definition bind {A B : Type} (c : M A) (k : A -> M B) : M B :=
  fun w =>
    match c w with
    | (Return a, w') => k a w'
    | (Raise e, w') => (Raise e, w')
    | (Exit n, w') => (Exit n, w')
    end.

Notation "'let*' x := c 'in' k" := (bind c (fun x => k))
  (at level 10, x name, c at level 100, k at level 200).
Notation "c ;; k" := (bind c (fun _ => k))
  (at level 100, k at level 200, right associativity).

(** An operation of [Py] that touches neither the files nor the log. *)
Definition lift {A : Type} (o : outcome A) : M A := fun w => (o, w).

Definition raise {A : Type} (e : exn) : M A := lift (Raise e).

(** [sys.exit(status)] *)
Definition sys_exit {A : Type} (status : Z) : M A := lift (Exit status).

(** [try: c except <the exceptions h handles>: h e]. The handler gets
    every exception of the model; the ones its [except] clause does not
    name it raises again. [sys.exit] passes every handler. *)
Definition try_except {A : Type} (c : M A) (h : exn -> M A) : M A :=
  fun w =>
    match c w with
    | (Raise e, w') => h e w'
    | r => r
    end.

Definition logger (l : level) (m : message) : M unit :=
  fun w => (Return tt, World (files w) (log w ++ [(l, m)])).

(** [os.path.exists], [open(path).read()] and [open(path, "w").write()] *)
Definition path_exists (path : string) : M bool :=
  fun w => (Return (bool_decide (is_Some (files w !! path))), w).

Definition read_file (path : string) : M str :=
  fun w =>
    match files w !! path with
    | Some content => (Return content, w)
    | None => (Raise OSError, w)
    end.

Definition write_file (path : string) (content : str) : M unit :=
  fun w => (Return tt, World (<[path := content]> (files w)) (log w)).

(** What the endpoint answers to the one GET of a run. [urlopen] raises
    [URLError] when there is no answer (no connection, time out) and for
    an error status; the script raises it for every other status but 200.
    The body of an answer may not be UTF-8, may not be JSON, or is a JSON
    document. *)
Inductive body : Type :=
| Undecodable
| Malformed
| Document (data : json).

Inductive reply : Type :=
| NoAnswer
| Answer (status : Z) (b : body).

(** Lines 50-53: the request, the status check and [json.loads]. *)
Definition fetch (r : reply) : M json :=
  match r with
  | NoAnswer => raise URLError
  | Answer status b =>
      if negb (Z.eqb status 200) then raise URLError
      else match b with
           | Undecodable => raise UnicodeDecodeError
           | Malformed => raise JSONDecodeError
           | Document data => ret data
           end
  end.

Definition k_result : str := codes "result".
Definition k_releases : str := codes "releases".
Definition k_isEol : str := codes "isEol".
Definition k_name : str := codes "name".

(** Lines 56-63: the releases of either shape of answer, or the end of
    the process. The test of the first branch is evaluated left to right
    and stops at the first false operand. *)
Definition select_releases (data : json) : M json :=
  let* nested :=
    (if is_dict data then
       let* has_result := lift (py_in k_result data) in
       if has_result then
         let* result := lift (py_getitem data k_result) in
         lift (py_in k_releases result)
       else ret false
     else ret false) in
  if nested then
    let* result := lift (py_getitem data k_result) in
    lift (py_getitem result k_releases)
  else
    match data with
    | JArr _ => ret data
    | _ => logger ERROR UnexpectedStructure ;; sys_exit 1
    end.

(** Lines 65-69: the loop over the releases. *)
Fixpoint active_loop (releases active_versions : list json)
  : outcome (list json) :=
  match releases with
  | [] => Return active_versions
  | release :: rest =>
      match py_get release k_isEol with
      | Return v =>
          if is_False v then
            match py_getitem release k_name with
            | Return name => active_loop rest (active_versions ++ [name])
            | Raise e => Raise e
            | Exit n => Exit n
            end
          else active_loop rest active_versions
      | Raise e => Raise e
      | Exit n => Exit n
      end
  end.

(** Lines 35-79. *)
Definition get_active_eks_versions (r : reply) : M (list json) :=
  try_except
    (logger INFO FetchingVersions ;;
     let* data := fetch r in
     let* releases := select_releases data in
     let* items := lift (py_iter releases) in
     let* active_versions := lift (active_loop items []) in
     (match active_versions with
      | [] => logger WARNING NoActiveVersions
      | _ :: _ => ret tt
      end) ;;
     logger INFO (FoundActiveVersions active_versions) ;;
     ret active_versions)
    (fun e =>
       match e with
       | URLError | JSONDecodeError =>
           logger ERROR (FetchFailed e) ;; raise e
       | _ => raise e
       end).


(** *** The updater *)

Definition condition_regex : regex :=
  lits (codes "contains([") ++ [Open 1; Lazy not_newline; Close 1; Lit c_rbracket].

Definition error_msg_regex : regex :=
  [Open 1] ++ lits (codes "error_message")
  ++ [Greedy is_space; Lit c_equals; Greedy is_space; Close 1;
      Open 2; Greedy not_newline; Close 2].

(** Line 106: the versions between double quotes, separated by a comma
    and a space. *)
Definition new_list_str (sorted_versions : list str) : str :=
  join (codes ", ") (map quoted sorted_versions).

(** Lines 129-131. *)
Definition new_error_msg_val (sorted_versions : list str) : str :=
  quoted (codes "The cluster_version must be one of: "
          ++ join (codes ", ") sorted_versions ++ codes ".").

(** [content[:start] + text + content[end:]] *)
Definition splice (content : str) (start_idx end_idx : nat) (text : str) : str :=
  take start_idx content ++ text ++ drop end_idx content.

(** Lines 110-120: the text with the list of the first [contains([...]]
    replaced, when there is one. *)
Definition replace_list (sorted_versions : list str) (content : str)
  : option str :=
  match search condition_regex content with
  | None => None
  | Some m =>
      let '(start_idx, end_idx) := span m 1 in
      Some (splice content start_idx end_idx (new_list_str sorted_versions))
  end.

(** Lines 125-135: the text with the value of the first [error_message]
    replaced, when there is one. *)
Definition replace_error_message (sorted_versions : list str)
  (new_content : str) : option str :=
  match search error_msg_regex new_content with
  | None => None
  | Some error_match =>
      let '(estart_idx, eend_idx) := span error_match 2 in
      Some (splice new_content estart_idx eend_idx
              (new_error_msg_val sorted_versions))
  end.

Definition DEFAULT_MODULE_VARIABLES_FILE : string :=
  "modules/eks/variables.tf"%string.

Section with_int.

(** The builtin [int] on a string, [None] for [ValueError]. *)
Variable int : str -> option Z.

(** The key of line 100, [[int(u) for u in s.split(".")]]. *)
Definition numeric_key (s : str) : option (list Z) :=
  mapM int (split c_dot s).

(** The keys of the versions, computed in order before any comparison:
    the first version that has none decides how the call ends. A version
    that is not a string has no [split]. *)
Fixpoint numeric_keys (versions : list json)
  : outcome (list (list Z * str)) :=
  match versions with
  | [] => Return []
  | JStr s :: rest =>
      match numeric_key s with
      | Some k =>
          match numeric_keys rest with
          | Return keyed => Return ((k, s) :: keyed)
          | Raise e => Raise e
          | Exit n => Exit n
          end
      | None => Raise ValueError
      end
  | _ :: _ => Raise AttributeError
  end.

Fixpoint strings_of (versions : list json) : option (list str) :=
  match versions with
  | [] => Some []
  | JStr s :: rest => cons s <$> strings_of rest
  | _ :: _ => None
  end.

(** Line 103, [sorted(versions)]. A string and a value of another type
    are not ordered, and the fallback is reached only with a string among
    the versions: the call raises [TypeError] unless all are strings. *)
Definition lexical_sorted (versions : list json) : outcome (list str) :=
  match strings_of versions with
  | Some l => Return (sorted str_lt (map (fun s => (s, s)) l))
  | None => Raise TypeError
  end.

(** Lines 98-103. *)
Definition sort_versions (versions : list json) : M (list str) :=
  try_except
    (let* keyed := lift (numeric_keys versions) in
     ret (sorted key_lt keyed))
    (fun e =>
       match e with
       | ValueError =>
           logger WARNING LexicalFallback ;; lift (lexical_sorted versions)
       | _ => raise e
       end).

(** Lines 82-150. Both handlers of the outer [try] log and end the
    process, so one handler stands for them. *)
Definition update_terraform_file (file_path : string) (versions : list json)
  : M unit :=
  let* found := path_exists file_path in
  if negb found then
    logger ERROR (FileNotFound file_path) ;; sys_exit 1
  else
    try_except
      (let* content := read_file file_path in
       let* sorted_versions := sort_versions versions in
       match replace_list sorted_versions content with
       | None => logger ERROR (NoContainsBlock file_path) ;; sys_exit 1
       | Some new_content =>
           let* new_content :=
             (match replace_error_message sorted_versions new_content with
              | Some updated => ret updated
              | None => logger WARNING NoErrorMessage ;; ret new_content
              end) in
           write_file file_path new_content ;;
           logger INFO (Updated file_path)
       end)
      (fun e => logger ERROR (UnexpectedError e) ;; sys_exit 1).

(** Lines 153-171. [argv] is [sys.argv], the reply of the endpoint is the
    other input of a run. *)
Definition main (argv : list string) (r : reply) : M unit :=
  let file_path :=
    match argv with
    | _ :: path :: _ => path
    | _ => DEFAULT_MODULE_VARIABLES_FILE
    end in
  try_except
    (let* active_versions := get_active_eks_versions r in
     match active_versions with
     | _ :: _ => update_terraform_file file_path active_versions
     | [] => logger ERROR NoVersionsRetrieved ;; sys_exit 1
     end)
    (fun e => logger ERROR (ScriptFailed e) ;; sys_exit 1).


End with_int.

End Script.

(* ===================================================================== *)
(** ** The fetcher *)
(* ===================================================================== *)

Import Py Re Script.

(** The two shapes of answer that the fetcher reads, with the array of
    release records of each. *)
Definition flat_shape (data : json) (records : list json) : Prop :=
  data = JArr records.

Definition nested_shape (data : json) (releases : json) : Prop :=
  exists fields rfields,
    data = JObj fields /\
    dict_get k_result fields = Some (JObj rfields) /\
    dict_get k_releases rfields = Some releases.

Definition recognized_shape (data : json) (records : list json) : Prop :=
  flat_shape data records \/ nested_shape data (JArr records).

(** A field of a release record. *)
Definition field (k : str) (record : json) : option json :=
  match record with
  | JObj fields => dict_get k fields
  | _ => None
  end.

(** The record has [isEol] and it is the boolean false. *)
Definition is_active (record : json) : bool :=
  match field k_isEol record with
  | Some (JBool false) => true
  | _ => false
  end.

(** A record the fetcher can read: an object, with a name when it is
    active. *)
Definition readable (record : json) : Prop :=
  is_dict record = true /\
  (is_active record = true -> is_Some (field k_name record)).

(** The answer with status 200 and a JSON body. *)
Definition json_reply (data : json) : reply := Answer 200 (Document data).

Ltac run_m :=
  unfold bind, ret, lift, raise, sys_exit, try_except, logger; simpl.

(** The same without unfolding the functions of the script. *)
Ltac step_m :=
  cbv [bind ret lift raise sys_exit try_except logger path_exists read_file
       write_file].

Lemma select_releases_flat records w :
  select_releases (JArr records) w = (Return (JArr records), w).
Proof. reflexivity. Qed.

Lemma select_releases_nested data releases w :
  nested_shape data releases ->
  select_releases data w = (Return releases, w).
Proof.
  intros (fields & rfields & -> & Hres & Hrel).
  unfold select_releases. run_m.
  unfold dict_has. rewrite Hres. simpl.
  unfold dict_has. rewrite Hrel. reflexivity.
Qed.

Lemma select_releases_recognized data records w :
  recognized_shape data records ->
  select_releases data w = (Return (JArr records), w).
Proof.
  intros [-> | Hn].
  - apply select_releases_flat.
  - by apply select_releases_nested.
Qed.

Lemma py_get_isEol record :
  is_dict record = true ->
  exists v, py_get record k_isEol = Return v /\ is_False v = is_active record.
Proof.
  destruct record as [| | | | |fields]; try discriminate. intros _.
  unfold py_get, is_active, field.
  destruct (dict_get k_isEol fields) as [v|]; eexists; split; reflexivity.
Qed.

Lemma active_loop_readable records :
  Forall readable records ->
  forall acc, exists names,
    active_loop records acc = Return (acc ++ names) /\
    map Some names = map (field k_name) (List.filter is_active records).
Proof.
  induction 1 as [|record records [Hdict Hname] _ IH]; intros acc.
  - exists []. by rewrite app_nil_r.
  - destruct (py_get_isEol record Hdict) as (v & Hget & Hv).
    cbn [active_loop List.filter]. rewrite Hget, Hv.
    destruct (is_active record) eqn:Hact.
    + destruct (Hname eq_refl) as [name Hn].
      destruct record as [| | | | |fields]; try discriminate.
      simpl in Hn. cbn [py_getitem]. rewrite Hn.
      destruct (IH (acc ++ [name])) as (names & -> & Hnames).
      exists (name :: names). rewrite <- app_assoc. split; [done|].
      cbn [map field]. by rewrite Hn, Hnames.
    + apply IH.
Qed.

Lemma active_loop_nameless records :
  Forall (fun r => is_dict r = true) records ->
  Exists (fun r => is_active r = true /\ field k_name r = None) records ->
  forall acc, active_loop records acc = Raise KeyError.
Proof.
  induction 1 as [|record records Hdict _ IH]; intros Hex acc.
  - inversion Hex.
  - destruct (py_get_isEol record Hdict) as (v & Hget & Hv).
    cbn [active_loop]. rewrite Hget, Hv.
    destruct record as [| | | | |fields]; try discriminate.
    destruct (is_active (JObj fields)) eqn:Hact.
    + cbn [py_getitem].
      destruct (dict_get k_name fields) as [name|] eqn:Hn; [|done].
      apply IH. inversion Hex as [? ? [_ Hnone]|]; subst; [|done].
      simpl in Hnone. congruence.
    + apply IH. inversion Hex as [? ? [Hact' _]|]; subst; [|done].
      congruence.
Qed.

(** C1. For an answer of either recognized shape whose records are all
    readable, the fetcher returns the names of the records whose isEol is
    present and is the boolean false, and of no other, in the order of
    the array; it leaves the files as they were. *)
Theorem fetch_returns_active_names data records w :
  recognized_shape data records ->
  Forall readable records ->
  exists names w',
    get_active_eks_versions (json_reply data) w = (Return names, w') /\
    map Some names = map (field k_name) (List.filter is_active records) /\
    files w' = files w.
Proof.
  intros Hshape Hrec.
  destruct (active_loop_readable records Hrec []) as (names & Hloop & Hnames).
  exists names. unfold get_active_eks_versions. run_m.
  rewrite (select_releases_recognized _ _ _ Hshape). simpl.
  rewrite Hloop. simpl.
  destruct names; simpl; eexists; split_and!; try reflexivity; done.
Qed.

(** A feed of three releases in the nested shape: one that is supported,
    one at its end of life, one that does not say. *)
Definition release (name : string) (eol : option bool) : json :=
  JObj ((k_name, JStr (codes name))
        :: match eol with
           | Some b => [(k_isEol, JBool b)]
           | None => []
           end).

Definition sample_records : list json :=
  [release "1.30" (Some false); release "1.27" (Some true);
   release "1.26" None; release "1.29" (Some false)].

Definition sample_feed : json :=
  JObj [(k_result, JObj [(k_releases, JArr sample_records)])].

Definition empty_world : world := World ∅ [].

Lemma fetch_returns_active_names_witness :
  exists names w',
    get_active_eks_versions (json_reply sample_feed) empty_world
    = (Return names, w') /\
    map Some names = [Some (JStr (codes "1.30")); Some (JStr (codes "1.29"))] /\
    files w' = ∅.
Proof.
  apply (fetch_returns_active_names sample_feed sample_records empty_world).
  - right. eexists _, _. split_and!; reflexivity.
  - repeat constructor; try reflexivity; try discriminate; simpl; eauto.
Defined.

(** The answer has neither of the two shapes. *)
Definition other_shape (data : json) : Prop :=
  (forall records, ~ flat_shape data records) /\
  (forall releases, ~ nested_shape data releases).

(** How the selection of the releases fails: the process ends there with
    status 1, or the test of the nested shape raises [TypeError]. *)
Definition selection_fails (data : json) (w : world) : Prop :=
  select_releases data w
  = (Exit 1, World (files w) (log w ++ [(ERROR, UnexpectedStructure)]))
  \/ select_releases data w = (Raise TypeError, w).

Lemma other_shape_selection_fails data w :
  other_shape data -> selection_fails data w.
Proof.
  intros [Hflat Hnested]. unfold selection_fails.
  destruct data as [| | | |records|fields];
    try (left; reflexivity).
  { by destruct (Hflat records). }
  unfold select_releases. run_m. unfold dict_has.
  destruct (dict_get k_result fields) as [result|] eqn:Hres;
    [|left; reflexivity].
  destruct result as [| | |s|items|rfields]; simpl;
    try (right; reflexivity).
  - destruct (occurs_in k_releases s); [right|left]; reflexivity.
  - destruct (existsb (str_equal k_releases) items); [right|left]; reflexivity.
  - unfold dict_has.
    destruct (dict_get k_releases rfields) as [releases|] eqn:Hrel;
      [|left; reflexivity].
    destruct (Hnested releases). by exists fields, rfields.
Qed.

(** C8. When the parsed answer is neither a list nor an object holding
    result.releases, the selection of the releases fails, so that the loop
    over the records is never entered, and the process ends with status 1,
    the files being left as they were. *)
Theorem unrecognized_shape_terminates int argv data w :
  other_shape data ->
  selection_fails data w /\
  exists w',
    main int argv (json_reply data) w = (Exit 1, w') /\
    files w' = files w.
Proof.
  intros Hother. split; [by apply other_shape_selection_fails|].
  unfold main, get_active_eks_versions. run_m.
  destruct (other_shape_selection_fails data
              (World (files w) (log w ++ [(INFO, FetchingVersions)])) Hother)
    as [-> | ->]; simpl; eexists; split; reflexivity.
Qed.

(** An object whose result is a number: the test of the nested shape
    raises, and the process ends with status 1. *)
Definition odd_feed : json := JObj [(k_result, JNum 5)].

Lemma odd_feed_other_shape : other_shape odd_feed.
Proof.
  split.
  - intros records. discriminate.
  - intros releases (fields & rfields & [= <-] & Hres & _). discriminate.
Qed.

Lemma unrecognized_shape_terminates_witness :
  selection_fails odd_feed empty_world /\
  exists w',
    main int_ascii [] (json_reply odd_feed) empty_world = (Exit 1, w') /\
    files w' = ∅.
Proof.
  apply (unrecognized_shape_terminates int_ascii [] odd_feed empty_world).
  apply odd_feed_other_shape.
Defined.

(** C10. In an answer of either recognized shape whose records are
    objects, a record whose isEol is the boolean false and that has no
    name makes the fetcher raise [KeyError]; [main] catches it and ends the
    process with status 1: the log holds the message of the fetcher and
    the one of the handler of [main], none of the updater, and the files
    are as they were. *)
Theorem nameless_active_record_aborts int argv data records w :
  recognized_shape data records ->
  Forall (fun r => is_dict r = true) records ->
  Exists (fun r => is_active r = true /\ field k_name r = None) records ->
  fst (get_active_eks_versions (json_reply data) w) = Raise KeyError /\
  main int argv (json_reply data) w
  = (Exit 1,
     World (files w)
       (log w ++ [(INFO, FetchingVersions); (ERROR, ScriptFailed KeyError)])).
Proof.
  intros Hshape Hdict Hex.
  pose proof (active_loop_nameless records Hdict Hex []) as Hloop.
  unfold main, get_active_eks_versions. run_m.
  rewrite !(select_releases_recognized _ _ _ Hshape). simpl.
  rewrite Hloop. simpl. rewrite <- app_assoc. done.
Qed.

Definition nameless_feed : json :=
  JArr [release "1.30" (Some false); JObj [(k_isEol, JBool false)]].

Lemma nameless_active_record_aborts_witness :
  fst (get_active_eks_versions (json_reply nameless_feed) empty_world)
  = Raise KeyError /\
  main int_ascii [] (json_reply nameless_feed) empty_world
  = (Exit 1,
     World ∅ [(INFO, FetchingVersions); (ERROR, ScriptFailed KeyError)]).
Proof.
  apply (nameless_active_record_aborts int_ascii [] nameless_feed
           [release "1.30" (Some false); JObj [(k_isEol, JBool false)]]
           empty_world).
  - left. reflexivity.
  - repeat constructor.
  - apply Exists_cons_tl, Exists_cons_hd. split; reflexivity.
Defined.

(* ===================================================================== *)
(** ** What the matcher computes on the two patterns *)
(* ===================================================================== *)

Section matcher.

(** One step of each star. *)
Lemma match_here_lazy p r s i c :
  match_here (Lazy p :: r) s i c =
  match match_here r s i c with
  | Some m => Some m
  | None =>
      match s with
      | x :: s' => if p x then match_here (Lazy p :: r) s' (S i) c else None
      | [] => None
      end
  end.
Proof. destruct s; reflexivity. Qed.

Lemma match_here_greedy p r s i c :
  match_here (Greedy p :: r) s i c =
  match s with
  | x :: s' =>
      if p x then
        match match_here (Greedy p :: r) s' (S i) c with
        | Some m => Some m
        | None => match_here r s i c
        end
      else match_here r s i c
  | [] => match_here r s i c
  end.
Proof. destruct s; reflexivity. Qed.

Lemma match_here_open g r s i c :
  match_here (Open g :: r) s i c = match_here r s i (open_group g i c).
Proof. reflexivity. Qed.

Lemma match_here_close g r s i c :
  match_here (Close g :: r) s i c = match_here r s i (close_group g i c).
Proof. reflexivity. Qed.

Lemma match_here_lit a r s i c :
  match_here (Lit a :: r) s i c =
  match s with
  | x :: s' => if N.eqb x a then match_here r s' (S i) c else None
  | [] => None
  end.
Proof. reflexivity. Qed.

Lemma is_prefix_app l s :
  is_prefix l s = true <-> exists rest, s = l ++ rest.
Proof.
  revert s. induction l as [|a l IH]; intros s; simpl.
  - split; eauto.
  - destruct s as [|b s].
    + split; [done|]. by intros [rest ?].
    + rewrite andb_true_iff, N.eqb_eq, IH. split.
      * intros [-> [rest ->]]. by exists rest.
      * intros [rest [= -> ->]]. eauto.
Qed.

Lemma is_prefix_app_l l rest : is_prefix l (l ++ rest) = true.
Proof. apply is_prefix_app. eauto. Qed.

Lemma match_here_lits l r s i c :
  match_here (lits l ++ r) s i c =
  if is_prefix l s then match_here r (drop (length l) s) (i + length l) c
  else None.
Proof.
  revert s i. induction l as [|a l IH]; intros s i; simpl.
  - by rewrite drop_0, Nat.add_0_r.
  - destruct s as [|b s]; [done|].
    rewrite (N.eqb_sym b a). destruct (N.eqb a b); simpl; [|done].
    rewrite IH, Nat.add_succ_r. done.
Qed.

(** The length of the longest prefix of characters of a class. *)
Fixpoint run_length (p : char -> bool) (s : str) : nat :=
  match s with
  | x :: s' => if p x then S (run_length p s') else 0
  | [] => 0
  end.

Lemma run_length_le p s : run_length p s <= length s.
Proof. induction s as [|x s IH]; simpl; [lia|]. destruct (p x); simpl; lia. Qed.

Lemma run_length_take p s : Forall (fun x => p x = true) (take (run_length p s) s).
Proof.
  induction s as [|x s IH]; simpl; [constructor|].
  destruct (p x) eqn:Hp; simpl; by constructor.
Qed.

Lemma run_length_stop p s :
  match drop (run_length p s) s with
  | x :: _ => p x = false
  | [] => True
  end.
Proof.
  induction s as [|x s IH]; simpl; [done|].
  destruct (p x) eqn:Hp; simpl; done.
Qed.

Lemma run_length_app p l s :
  Forall (fun x => p x = true) l ->
  run_length p (l ++ s) = length l + run_length p s.
Proof. induction 1 as [|x l Hx _ IH]; simpl; [done|]. by rewrite Hx, IH. Qed.

(** A greedy star gives what the rest of the pattern gives after the
    longest run, when it matches there. *)
Lemma match_here_greedy_longest p r s i c m :
  match_here r (drop (run_length p s) s) (i + run_length p s) c = Some m ->
  match_here (Greedy p :: r) s i c = Some m.
Proof.
  revert i. induction s as [|x s IH]; intros i; rewrite match_here_greedy;
    cbn [run_length skipn].
  - by rewrite Nat.add_0_r.
  - destruct (p x); cbn [skipn].
    + rewrite Nat.add_succ_r. intros H. by rewrite (IH (S i) H).
    + by rewrite Nat.add_0_r.
Qed.

(** It fails when the rest of the pattern fails after every shorter run. *)
Lemma match_here_greedy_none p r s i c :
  (forall k, k <= run_length p s ->
             match_here r (drop k s) (i + k) c = None) ->
  match_here (Greedy p :: r) s i c = None.
Proof.
  revert i. induction s as [|x s IH]; intros i H; rewrite match_here_greedy.
  - specialize (H 0). cbn [skipn] in H. rewrite Nat.add_0_r in H.
    apply H. lia.
  - pose proof (H 0) as H0. cbn [skipn run_length] in H, H0.
    rewrite Nat.add_0_r in H0.
    destruct (p x); [|apply H0; lia].
    rewrite IH; [apply H0; lia|].
    intros k Hk. specialize (H (S k)). cbn [skipn] in H.
    rewrite Nat.add_succ_r in H. apply H. lia.
Qed.

End matcher.

(** *** The leftmost place where a test on the rest of the text succeeds *)

Section leftmost.
Context {X : Type} (here : str -> option X).

Fixpoint leftmost (s : str) (i : nat) : option (nat * X) :=
  match here s with
  | Some x => Some (i, x)
  | None =>
      match s with
      | [] => None
      | _ :: s' => leftmost s' (S i)
      end
  end.

Lemma leftmost_inv s i :
  match leftmost s i with
  | Some (k, x) =>
      exists j, k = i + j /\ j <= length s /\ here (drop j s) = Some x /\
                forall j', j' < j -> here (drop j' s) = None
  | None => forall j, j <= length s -> here (drop j s) = None
  end.
Proof.
  revert i. induction s as [|c s IH]; intros i; cbn [leftmost].
  - destruct (here []) as [x|] eqn:Hh.
    + exists 0. rewrite Nat.add_0_r. split_and!; try done. lia.
    + intros j Hj. simpl in Hj. by replace j with 0 by lia.
  - destruct (here (c :: s)) as [x|] eqn:Hh.
    + exists 0. rewrite Nat.add_0_r. split_and!; try done; simpl; lia.
    + specialize (IH (S i)). destruct (leftmost s (S i)) as [[k x]|].
      * destruct IH as (j & -> & Hj & Hx & Hfirst).
        exists (S j). split_and!; try done; [lia|simpl; lia|].
        intros [|j'] Hj'; [done|]. apply Hfirst. lia.
      * intros [|j] Hj; [done|]. apply IH. simpl in Hj. lia.
Qed.

Lemma leftmost_first s i j x :
  j <= length s ->
  here (drop j s) = Some x ->
  (forall j', j' < j -> here (drop j' s) = None) ->
  leftmost s i = Some (i + j, x).
Proof.
  intros Hj Hx Hfirst. pose proof (leftmost_inv s i) as Hinv.
  destruct (leftmost s i) as [[k y]|].
  - destruct Hinv as (j0 & -> & Hj0 & Hy & Hfirst0).
    destruct (Nat.lt_trichotomy j0 j) as [Hlt | [-> | Hgt]].
    + rewrite (Hfirst _ Hlt) in Hy. done.
    + congruence.
    + rewrite (Hfirst0 _ Hgt) in Hx. done.
  - rewrite (Hinv j Hj) in Hx. done.
Qed.

Lemma leftmost_none s i :
  (forall j, j <= length s -> here (drop j s) = None) ->
  leftmost s i = None.
Proof.
  intros Hnone. pose proof (leftmost_inv s i) as Hinv.
  destruct (leftmost s i) as [[k y]|]; [|done].
  destruct Hinv as (j & _ & Hj & Hy & _). rewrite (Hnone j Hj) in Hy. done.
Qed.
End leftmost.

(** *** The pattern of the list *)

Definition LIT : str := codes "contains([".
Definition EM : str := codes "error_message".

(** The distance to the first closing bracket, when no line feed comes
    before it. *)
Fixpoint list_end (s : str) : option nat :=
  match s with
  | [] => None
  | x :: s' =>
      if N.eqb x c_rbracket then Some 0
      else if not_newline x then S <$> list_end s'
      else None
  end.

(** The pattern of the list matches at the start of [s], with an inner
    text of this length. *)
Definition condition_here (s : str) : option nat :=
  if is_prefix LIT s then list_end (drop (length LIT) s) else None.

Lemma match_close_bracket s i a :
  match_here [Close 1; Lit c_rbracket] s i (Groups [(1, a)] [])
  = match s with
    | x :: _ =>
        if N.eqb x c_rbracket
        then Some (S i, Groups [(1, a)] [(1, (a, i))]) else None
    | [] => None
    end.
Proof. by destruct s. Qed.

Lemma match_lazy_list_end s i a :
  match_here [Lazy not_newline; Close 1; Lit c_rbracket] s i (Groups [(1, a)] [])
  = match list_end s with
    | Some n => Some (i + n + 1, Groups [(1, a)] [(1, (a, i + n))])
    | None => None
    end.
Proof.
  revert i. induction s as [|x s IH]; intros i;
    rewrite match_here_lazy, match_close_bracket; cbn [list_end].
  - reflexivity.
  - destruct (N.eqb x c_rbracket) eqn:Hx.
    + by rewrite Nat.add_0_r, Nat.add_1_r.
    + destruct (not_newline x); [|done].
      rewrite IH. destruct (list_end s) as [n|]; [|done].
      cbn [fmap option_fmap option_map].
      by replace (S i + n) with (i + S n) by lia.
Qed.

Lemma match_condition_here s i :
  match_here condition_regex s i no_groups
  = match condition_here s with
    | Some n =>
        Some (i + 10 + n + 1,
              Groups [(1, i + 10)] [(1, (i + 10, i + 10 + n))])
    | None => None
    end.
Proof.
  unfold condition_regex, condition_here. rewrite match_here_lits.
  fold LIT. destruct (is_prefix LIT s); [|done].
  change (length (codes "contains([")) with 10. change (length LIT) with 10.
  rewrite match_here_open.
  change (open_group 1 (i + 10) no_groups) with (Groups [(1, i + 10)] []).
  rewrite match_lazy_list_end.
  by destruct (list_end (drop 10 s)) as [n|].
Qed.

Definition condition_match (kn : nat * nat) : rmatch :=
  let '(k, n) := kn in Match k (k + 10 + n + 1) [(1, (k + 10, k + 10 + n))].

Lemma search_condition_from s i :
  search_from condition_regex s i
  = condition_match <$> leftmost condition_here s i.
Proof.
  revert i. induction s as [|x s IH]; intros i;
    cbn [search_from leftmost]; rewrite match_condition_here.
  - by destruct (condition_here []).
  - destruct (condition_here (x :: s)); [done|apply IH].
Qed.

Lemma replace_list_leftmost sorted_versions content :
  replace_list sorted_versions content
  = match leftmost condition_here content 0 with
    | Some (k, n) =>
        Some (splice content (k + 10) (k + 10 + n)
                (new_list_str sorted_versions))
    | None => None
    end.
Proof.
  unfold replace_list, search. rewrite search_condition_from.
  destruct (leftmost condition_here content 0) as [[k n]|]; done.
Qed.

(** *** The pattern of the error message *)

(** The pattern of the message matches at the start of [s]: where its
    value starts, counted from the start of [s], and the length of the
    value. *)
Definition error_here (s : str) : option (nat * nat) :=
  if is_prefix EM s then
    let s1 := drop (length EM) s in
    let n1 := run_length is_space s1 in
    match drop n1 s1 with
    | x :: s2 =>
        if N.eqb x c_equals then
          let n2 := run_length is_space s2 in
          Some (13 + n1 + 1 + n2, run_length not_newline (drop n2 s2))
        else None
    | [] => None
    end
  else None.

Lemma run_length_inside p s k x rest :
  k < run_length p s -> drop k s = x :: rest -> p x = true.
Proof.
  revert k. induction s as [|y s IH]; intros k; simpl; [lia|].
  destruct (p y) eqn:Hy; [|lia].
  destruct k as [|k]; simpl.
  - intros _ [= -> _]. done.
  - intros Hk. apply IH. lia.
Qed.

Lemma match_value s i c :
  match_here [Greedy not_newline; Close 2] s i c
  = Some (i + run_length not_newline s,
          close_group 2 (i + run_length not_newline s) c).
Proof. by apply match_here_greedy_longest. Qed.

Lemma match_after_equals s i a :
  match_here [Greedy is_space; Close 1; Open 2; Greedy not_newline; Close 2]
    s i (Groups [(1, a)] [])
  = let v := i + run_length is_space s in
    let n := run_length not_newline (drop (run_length is_space s) s) in
    Some (v + n, Groups [(2, v); (1, a)] [(2, (v, v + n)); (1, (a, v))]).
Proof.
  apply match_here_greedy_longest.
  rewrite match_here_close, match_here_open, match_value. reflexivity.
Qed.

Lemma match_error_here s i :
  match_here error_msg_regex s i no_groups
  = match error_here s with
    | Some (a, n) =>
        Some (i + a + n,
              Groups [(2, i + a); (1, i)]
                [(2, (i + a, i + a + n)); (1, (i, i + a))])
    | None => None
    end.
Proof.
  unfold error_msg_regex, error_here.
  change ([Open 1] ++ ?r) with (Open 1 :: r).
  rewrite match_here_open, match_here_lits. fold EM.
  destruct (is_prefix EM s); [|done].
  change (length EM) with 13.
  change (open_group 1 i no_groups) with (Groups [(1, i)] []).
  set (s1 := drop 13 s). set (n1 := run_length is_space s1).
  destruct (drop n1 s1) as [|x s2] eqn:Hdrop.
  - apply match_here_greedy_none. intros k Hk. rewrite match_here_lit.
    destruct (drop k s1) as [|y rest] eqn:Hk'; [done|].
    destruct (decide (k = n1)) as [->|Hne]; [congruence|].
    assert (is_space y = true) as Hy
      by (eapply run_length_inside; [|exact Hk']; fold n1; lia).
    destruct (N.eqb_spec y c_equals) as [->|]; done.
  - destruct (N.eqb x c_equals) eqn:Hx.
    + apply match_here_greedy_longest. fold n1. rewrite Hdrop.
      rewrite match_here_lit, Hx, match_after_equals. cbn zeta.
      replace (S (i + 13 + n1) + run_length is_space s2)
        with (i + (13 + n1 + 1 + run_length is_space s2)) by lia.
      done.
    + apply match_here_greedy_none. intros k Hk. rewrite match_here_lit.
      destruct (drop k s1) as [|y rest] eqn:Hk'; [done|].
      destruct (decide (k = n1)) as [->|Hne].
      * rewrite Hdrop in Hk'. injection Hk' as <- <-. by rewrite Hx.
      * assert (is_space y = true) as Hy
          by (eapply run_length_inside; [|exact Hk']; fold n1; lia).
        destruct (N.eqb_spec y c_equals) as [->|]; done.
Qed.

Definition error_match (kan : nat * (nat * nat)) : rmatch :=
  let '(k, (a, n)) := kan in
  Match k (k + a + n) [(2, (k + a, k + a + n)); (1, (k, k + a))].

Lemma search_error_from s i :
  search_from error_msg_regex s i = error_match <$> leftmost error_here s i.
Proof.
  revert i. induction s as [|x s IH]; intros i;
    cbn [search_from leftmost]; rewrite match_error_here.
  - by destruct (error_here []) as [[a n]|].
  - destruct (error_here (x :: s)) as [[a n]|]; [done|apply IH].
Qed.

Lemma replace_error_message_leftmost sorted_versions new_content :
  replace_error_message sorted_versions new_content
  = match leftmost error_here new_content 0 with
    | Some (k, (a, n)) =>
        Some (splice new_content (k + a) (k + a + n)
                (new_error_msg_val sorted_versions))
    | None => None
    end.
Proof.
  unfold replace_error_message, search. rewrite search_error_from.
  destruct (leftmost error_here new_content 0) as [[k [a n]]|]; done.
Qed.

(* ===================================================================== *)
(** ** The two regions, in terms of the text *)
(* ===================================================================== *)

(** The pattern of the list occurs in [content] after [pre]: the literal,
    an inner text on one line, a closing bracket. *)
Definition list_at (content pre inner post : str) : Prop :=
  content = pre ++ LIT ++ inner ++ c_rbracket :: post /\
  Forall (fun x => x <> c_newline) inner.

Definition has_list (content : str) : Prop :=
  exists pre inner post, list_at content pre inner post.

(** The occurrence that [re.search] finds: the leftmost one, with the
    inner text that ends at the first closing bracket. *)
Definition first_list (content pre inner post : str) : Prop :=
  list_at content pre inner post /\
  Forall (fun x => x <> c_rbracket) inner /\
  forall pre' inner' post',
    list_at content pre' inner' post' -> length pre <= length pre'.

(** An assignment to [error_message] occurs in [text] after [pre]. *)
Definition assignment_at (text pre ws rest : str) : Prop :=
  text = pre ++ EM ++ ws ++ c_equals :: rest /\
  Forall (fun x => is_space x = true) ws.

Definition has_assignment (text : str) : Prop :=
  exists pre ws rest, assignment_at text pre ws rest.

Lemma not_newline_true x : not_newline x = true <-> x <> c_newline.
Proof.
  unfold not_newline. rewrite negb_true_iff.
  destruct (N.eqb_spec x c_newline); split; congruence.
Qed.

Lemma list_end_Some s n :
  list_end s = Some n <->
  exists inner rest,
    s = inner ++ c_rbracket :: rest /\ length inner = n /\
    Forall (fun x => x <> c_rbracket /\ x <> c_newline) inner.
Proof.
  revert n. induction s as [|x s IH]; intros n; cbn [list_end].
  - split; [done|]. intros ([|??] & ? & ? & _); done.
  - destruct (N.eqb_spec x c_rbracket) as [->|Hx].
    + split.
      * intros [= <-]. exists [], s. split_and!; done.
      * intros ([|y inner] & rest & Heq & <- & Hin); [done|].
        injection Heq as <- _. apply Forall_cons in Hin as [[] _]. done.
    + destruct (not_newline x) eqn:Hnl.
      * apply not_newline_true in Hnl.
        destruct (list_end s) as [m|] eqn:Hm; cbn.
        -- split.
           ++ intros [= <-].
              destruct (proj1 (IH m) eq_refl) as (inner & rest & -> & <- & Hin).
              exists (x :: inner), rest. split_and!; try done.
              by constructor.
           ++ intros ([|y inner] & rest & Heq & <- & Hin);
                injection Heq as -> ->; [done|].
              apply Forall_cons in Hin as [_ Hin]. f_equal. cbn.
              f_equal. assert (Some m = Some (length inner)) as [= ->]; [|done].
              apply IH. by exists inner, rest.
        -- split; [done|].
           intros ([|y inner] & rest & Heq & <- & Hin);
             injection Heq as -> ->; [done|].
           apply Forall_cons in Hin as [_ Hin].
           assert (None = Some (length inner)); [|done].
           apply IH. by exists inner, rest.
      * split; [done|].
        intros ([|y inner] & rest & Heq & <- & Hin);
          injection Heq as -> ->; [done|].
        apply Forall_cons in Hin as [[_ Hy] _].
        apply not_newline_true in Hy. congruence.
Qed.

(** Some closing bracket on the line is enough for the lazy star to find
    the first one. *)
Lemma list_end_occurs inner rest :
  Forall (fun x => x <> c_newline) inner ->
  is_Some (list_end (inner ++ c_rbracket :: rest)).
Proof.
  induction 1 as [|x inner Hx _ IH]; cbn [list_end app].
  - rewrite N.eqb_refl. eauto.
  - destruct (N.eqb x c_rbracket); [eauto|].
    apply not_newline_true in Hx. rewrite Hx.
    destruct IH as [n ->]. cbn. eauto.
Qed.

Lemma drop_LIT_app rest : drop (length LIT) (LIT ++ rest) = rest.
Proof. by rewrite drop_app_length. Qed.

Lemma condition_here_Some s n :
  condition_here s = Some n <->
  exists inner rest,
    s = LIT ++ inner ++ c_rbracket :: rest /\ length inner = n /\
    Forall (fun x => x <> c_rbracket /\ x <> c_newline) inner.
Proof.
  unfold condition_here. split.
  - destruct (is_prefix LIT s) eqn:Hp; [|done].
    apply is_prefix_app in Hp as [u ->]. rewrite drop_LIT_app.
    intros (inner & rest & -> & <- & Hin)%list_end_Some. eauto.
  - intros (inner & rest & -> & <- & Hin).
    rewrite is_prefix_app_l, drop_LIT_app. apply list_end_Some. eauto.
Qed.

Lemma condition_here_occurs inner rest :
  Forall (fun x => x <> c_newline) inner ->
  is_Some (condition_here (LIT ++ inner ++ c_rbracket :: rest)).
Proof.
  intros Hin. unfold condition_here.
  rewrite is_prefix_app_l, drop_LIT_app. by apply list_end_occurs.
Qed.

Lemma condition_here_None_at content j :
  (forall pre inner post, list_at content pre inner post -> j <> length pre) ->
  j <= length content ->
  condition_here (drop j content) = None.
Proof.
  intros Hno Hj. destruct (condition_here (drop j content)) as [n|] eqn:Hc;
    [|done].
  apply condition_here_Some in Hc as (inner & rest & Heq & _ & Hin).
  destruct (Hno (take j content) inner rest).
  - split.
    + by rewrite <- Heq, take_drop.
    + eapply Forall_impl; [exact Hin|]. by intros x [_ ?].
  - rewrite length_take. lia.
Qed.

Lemma splice_app (a b c text : str) :
  splice (a ++ b ++ c) (length a) (length a + length b) text = a ++ text ++ c.
Proof.
  unfold splice. rewrite take_app_length.
  by rewrite (app_assoc a b c), <- length_app, drop_app_length.
Qed.

Lemma first_list_leftmost content pre inner post :
  first_list content pre inner post ->
  leftmost condition_here content 0 = Some (length pre, length inner).
Proof.
  intros ([Heq Hnl] & Hbr & Hmin).
  apply (leftmost_first condition_here content 0 (length pre)).
  - rewrite Heq, length_app. lia.
  - rewrite Heq, drop_app_length. apply condition_here_Some.
    exists inner, post. split_and!; try done.
    apply Forall_and. done.
  - intros j Hj. apply condition_here_None_at.
    + intros pre' inner' post' Hat%Hmin. lia.
    + rewrite Heq, length_app. lia.
Qed.

Lemma leftmost_first_list content k n :
  leftmost condition_here content 0 = Some (k, n) ->
  exists pre inner post,
    first_list content pre inner post /\ length pre = k /\ length inner = n.
Proof.
  intros Hl. pose proof (leftmost_inv condition_here content 0) as Hinv.
  rewrite Hl in Hinv. destruct Hinv as (j & -> & Hj & Hhere & Hfirst).
  apply condition_here_Some in Hhere as (inner & post & Heq & <- & Hin).
  apply Forall_and in Hin as [Hbr Hnl].
  exists (take j content), inner, post.
  split; [|split; [rewrite length_take; simpl; lia|done]].
  split; [split; [by rewrite <- Heq, take_drop|done]|].
  split; [done|].
  intros pre' inner' post' [Heq' Hnl'].
  destruct (decide (length pre' < j)) as [Hlt|]; [|rewrite length_take; lia].
  specialize (Hfirst _ Hlt). rewrite Heq', drop_app_length in Hfirst.
  destruct (condition_here_occurs inner' post' Hnl') as [m Hm]. congruence.
Qed.

Lemma leftmost_no_list content :
  leftmost condition_here content 0 = None <-> ~ has_list content.
Proof.
  split.
  - intros Hl (pre & inner & post & Heq & Hnl).
    pose proof (leftmost_inv condition_here content 0) as Hinv.
    rewrite Hl in Hinv. specialize (Hinv (length pre)).
    rewrite Heq, drop_app_length, length_app in Hinv.
    destruct (condition_here_occurs inner post Hnl) as [m Hm].
    rewrite Hinv in Hm; [done|lia].
  - intros Hno. apply leftmost_none. intros j Hj.
    apply condition_here_None_at; [|done].
    intros pre inner post Hat. destruct Hno. by exists pre, inner, post.
Qed.

(** The list replacement, on the text. *)
Lemma replace_list_first sorted_versions content pre inner post :
  first_list content pre inner post ->
  replace_list sorted_versions content
  = Some (pre ++ LIT ++ new_list_str sorted_versions ++ c_rbracket :: post).
Proof.
  intros Hfirst. rewrite replace_list_leftmost.
  rewrite (first_list_leftmost _ _ _ _ Hfirst).
  destruct Hfirst as ([-> _] & _). f_equal.
  change 10 with (length LIT).
  rewrite <- length_app, (app_assoc pre LIT), splice_app.
  by rewrite <- app_assoc.
Qed.

Lemma replace_list_Some sorted_versions content new_content :
  replace_list sorted_versions content = Some new_content ->
  exists pre inner post,
    first_list content pre inner post /\
    new_content
    = pre ++ LIT ++ new_list_str sorted_versions ++ c_rbracket :: post.
Proof.
  intros Hr. pose proof Hr as Hr'. rewrite replace_list_leftmost in Hr'.
  destruct (leftmost condition_here content 0) as [[k n]|] eqn:Hl; [|done].
  apply leftmost_first_list in Hl as (pre & inner & post & Hfirst & _).
  exists pre, inner, post. split; [done|].
  rewrite (replace_list_first _ _ _ _ _ Hfirst) in Hr. congruence.
Qed.

Lemma replace_list_None sorted_versions content :
  replace_list sorted_versions content = None <-> ~ has_list content.
Proof.
  rewrite replace_list_leftmost, <- leftmost_no_list.
  destruct (leftmost condition_here content 0) as [[k n]|]; split; done.
Qed.

(* ===================================================================== *)
(** ** The updater on a list of strings *)
(* ===================================================================== *)

Section updater.

Variable int : str -> option Z.

(** What the sort step returns on versions that are all strings, and what
    it logs. *)
Definition sort_strings (vs : list str) : list str :=
  match mapM (numeric_key int) vs with
  | Some keys => sorted key_lt (zip keys vs)
  | None => sorted str_lt (map (fun s => (s, s)) vs)
  end.

Definition sort_log (vs : list str) : list (level * message) :=
  match mapM (numeric_key int) vs with
  | Some _ => []
  | None => [(WARNING, LexicalFallback)]
  end.

Lemma numeric_keys_strings vs :
  numeric_keys int (map JStr vs)
  = match mapM (numeric_key int) vs with
    | Some keys => Return (zip keys vs)
    | None => Raise ValueError
    end.
Proof.
  induction vs as [|s vs IH]; [done|].
  cbn [map numeric_keys mapM]. rewrite IH.
  destruct (numeric_key int s) as [k|]; [|done]. cbn.
  destruct (mapM (numeric_key int) vs); done.
Qed.

Lemma strings_of_strings vs : strings_of (map JStr vs) = Some vs.
Proof. induction vs as [|s vs IH]; [done|]. cbn. by rewrite IH. Qed.

Lemma world_eta w : World (files w) (log w) = w.
Proof. by destruct w. Qed.

Lemma sort_versions_strings vs w :
  sort_versions int (map JStr vs) w
  = (Return (sort_strings vs), World (files w) (log w ++ sort_log vs)).
Proof.
  unfold sort_versions, sort_strings, sort_log. step_m.
  rewrite numeric_keys_strings.
  destruct (mapM (numeric_key int) vs) as [keys|]; simpl.
  - by rewrite app_nil_r, world_eta.
  - unfold lexical_sorted. by rewrite strings_of_strings.
Qed.

(** On any versions, the sort step returns or raises, and leaves the
    files alone. *)
Lemma sort_versions_files versions w :
  exists o w',
    sort_versions int versions w = (o, w') /\ files w' = files w /\
    forall n, o <> Exit n.
Proof.
  unfold sort_versions. step_m.
  destruct (numeric_keys int versions) as [keyed|[]|n] eqn:Hk; simpl;
    try (eexists _, _; split_and!; [reflexivity|done|done]).
  - unfold lexical_sorted.
    destruct (strings_of versions);
      eexists _, _; split_and!; try reflexivity; done.
  - exfalso. clear w. revert n Hk.
    induction versions as [|v versions IH]; intros n; [done|].
    destruct v; try done. cbn [numeric_keys].
    destruct (numeric_key int s); [|done].
    destruct (numeric_keys int versions); try done.
    intros [= <-]. by eapply IH.
Qed.


(** The updater never lets an exception out. *)
Lemma update_never_raises path versions w e w' :
  update_terraform_file int path versions w <> (Raise e, w').
Proof.
  unfold update_terraform_file. step_m.
  destruct (bool_decide (is_Some (files w !! path))) eqn:Hex; cbn [negb];
    [|done].
  destruct (files w !! path) as [content|]; [|done].
  destruct (sort_versions_files versions w) as (o & w1 & -> & _ & Hexit).
  destruct o as [sorted_versions|e'|n]; [|done|done].
  destruct (replace_list sorted_versions content) as [new_content|]; [|done].
  destruct (replace_error_message sorted_versions new_content); done.
Qed.

(** [main] after a fetch that returned versions is the updater. *)
Definition arg_path (argv : list string) : string :=
  match argv with
  | _ :: path :: _ => path
  | _ => DEFAULT_MODULE_VARIABLES_FILE
  end.

Lemma main_runs_updater argv r w v active w1 :
  get_active_eks_versions r w = (Return (v :: active), w1) ->
  main int argv r w = update_terraform_file int (arg_path argv) (v :: active) w1.
Proof.
  intros Hfetch. unfold main. fold (arg_path argv).
  unfold try_except at 1. unfold bind at 1. rewrite Hfetch.
  destruct (update_terraform_file int (arg_path argv) (v :: active) w1)
    as [[u|e|n] w2] eqn:Hup; try done.
  by apply update_never_raises in Hup.
Qed.

End updater.

(* ===================================================================== *)
(** ** The list region *)
(* ===================================================================== *)

(** A decomposition of the text at the place that the search finds is the
    first occurrence. *)
Lemma first_list_by_search content pre inner post :
  content = pre ++ LIT ++ inner ++ c_rbracket :: post ->
  leftmost condition_here content 0 = Some (length pre, length inner) ->
  first_list content pre inner post.
Proof.
  intros Heq Hl.
  apply leftmost_first_list in Hl as (pre0 & inner0 & post0 & Hf & Hp & Hi).
  destruct Hf as ([Heq0 Hnl] & Hbr & Hmin).
  rewrite Heq in Heq0.
  apply app_inj_1 in Heq0 as [<- Heq0]; [|done].
  apply app_inj_1 in Heq0 as [_ Heq0]; [|done].
  apply app_inj_1 in Heq0 as [<- [= <-]]; [|done].
  split; [by split|by split].
Qed.

(** C6. When the pattern of the list occurs nowhere in the file, the
    updater ends the process with status 1, whatever the versions are, and
    writes nothing: the files are as they were. So does [main] when the
    fetcher has returned these versions. *)
Theorem missing_list_is_fatal int path versions content w :
  files w !! path = Some content ->
  ~ has_list content ->
  exists w',
    update_terraform_file int path versions w = (Exit 1, w') /\
    files w' = files w /\
    forall argv r w0 v active,
      versions = v :: active -> arg_path argv = path ->
      get_active_eks_versions r w0 = (Return versions, w) ->
      main int argv r w0 = (Exit 1, w').
Proof.
  intros Hfile Hno.
  assert (exists w', update_terraform_file int path versions w = (Exit 1, w')
                     /\ files w' = files w) as (w' & Hup & Hfiles).
  { unfold update_terraform_file. step_m.
    rewrite bool_decide_true by eauto. cbn [negb]. rewrite !Hfile.
    destruct (sort_versions_files int versions w)
      as (o & w1 & -> & Hw1 & Hexit).
    destruct o as [sorted_versions|e|n].
    - apply (replace_list_None sorted_versions) in Hno. rewrite Hno.
      eexists. split; [reflexivity|done].
    - eexists. split; [reflexivity|done].
    - by destruct (Hexit n). }
  exists w'. split_and!; try done.
  intros argv r w0 v active -> <- Hfetch.
  by rewrite (main_runs_updater int argv r w0 v active w Hfetch).
Qed.

Definition tf_path : string := "modules/eks/variables.tf"%string.

Definition plain_variable : str :=
  codes "variable cluster_version { type = string }".

Lemma missing_list_is_fatal_witness :
  exists w',
    update_terraform_file int_ascii tf_path [JStr (codes "1.29")]
      (World {[ tf_path := plain_variable ]} []) = (Exit 1, w') /\
    files w' = {[ tf_path := plain_variable ]}.
Proof.
  destruct (missing_list_is_fatal int_ascii tf_path [JStr (codes "1.29")]
              plain_variable (World {[ tf_path := plain_variable ]} []))
    as (w' & Hup & Hfiles & _).
  - vm_compute. reflexivity.
  - apply leftmost_no_list. vm_compute. reflexivity.
  - exists w'. split; assumption.
Defined.

(** C2, as the code has it. The replaced list is the one of the first
    place where [contains([] is followed on the same line by a closing
    bracket; its inner text runs to the first such bracket. That inner
    text, and nothing else, is replaced by the sorted versions, each
    between double quotes, separated by a comma and a space. *)
Theorem first_list_replaced int vs content pre inner post :
  first_list content pre inner post ->
  replace_list (sort_strings int vs) content
  = Some (pre ++ LIT ++ new_list_str (sort_strings int vs)
          ++ c_rbracket :: post).
Proof. apply replace_list_first. Qed.

(** The document and the versions of the example of the specification. *)
Definition validation_block (versions message : str) : str :=
  codes "  validation {" ++ [c_newline]
  ++ codes "    condition     = contains([" ++ versions
  ++ codes "], var.cluster_version)" ++ [c_newline]
  ++ codes "    error_message = " ++ message ++ [c_newline]
  ++ codes "  }" ++ [c_newline].

Definition old_list : str :=
  quoted (codes "1.27") ++ codes ", " ++ quoted (codes "1.28").
Definition new_list : str :=
  quoted (codes "1.29") ++ codes ", " ++ quoted (codes "1.30").
Definition old_message : str :=
  quoted (codes "The cluster_version must be one of: 1.27, 1.28.").
Definition new_message : str :=
  quoted (codes "The cluster_version must be one of: 1.29, 1.30.").
Definition fetched : list str := [codes "1.29"; codes "1.30"].

Lemma first_list_replaced_witness :
  replace_list (sort_strings int_ascii fetched)
    (validation_block old_list old_message)
  = Some (validation_block new_list old_message).
Proof.
  rewrite (first_list_replaced int_ascii fetched
             (validation_block old_list old_message)
             (codes "  validation {" ++ [c_newline]
              ++ codes "    condition     = ")
             old_list
             (codes ", var.cluster_version)" ++ [c_newline]
              ++ codes "    error_message = " ++ old_message ++ [c_newline]
              ++ codes "  }" ++ [c_newline])).
  - vm_compute. reflexivity.
  - apply first_list_by_search; vm_compute; reflexivity.
Defined.

(** The list region as the specification words it: the first occurrence
    of [contains([], with the shortest inner text up to the first closing
    bracket that follows, whatever lies between. *)
Fixpoint spec_list_end (s : str) : option nat :=
  match s with
  | [] => None
  | x :: s' => if N.eqb x c_rbracket then Some 0 else S <$> spec_list_end s'
  end.

Definition spec_condition_here (s : str) : option nat :=
  if is_prefix LIT s then spec_list_end (drop (length LIT) s) else None.

Definition spec_replace_list (sorted_versions : list str) (content : str)
  : option str :=
  match leftmost spec_condition_here content 0 with
  | Some (k, n) =>
      Some (splice content (k + 10) (k + 10 + n)
              (new_list_str sorted_versions))
  | None => None
  end.

(** A list written over several lines. *)
Definition multiline_condition (versions : list str) : str :=
  codes "condition = contains([" ++ [c_newline]
  ++ join ([44%N; c_newline]) (map (fun v => codes "  " ++ quoted v) versions)
  ++ [c_newline] ++ codes "], var.cluster_version)" ++ [c_newline].

(** C2 fails as stated: the inner text of this list runs to the first
    closing bracket that follows [contains([], and the wording of the
    specification replaces it; the pattern of the code, whose inner text
    cannot cross a line feed, does not occur, the updater ends the process
    and the file keeps the old list. *)
Lemma multiline_list_not_replaced :
  let content := multiline_condition [codes "1.27"; codes "1.28"] in
  let w := World {[ tf_path := content ]} [] in
  spec_replace_list fetched content
  = Some (codes "condition = contains([" ++ new_list
          ++ codes "], var.cluster_version)" ++ [c_newline]) /\
  replace_list fetched content = None /\
  update_terraform_file int_ascii tf_path (map JStr fetched) w
  = (Exit 1, World {[ tf_path := content ]}
               [(ERROR, NoContainsBlock tf_path)]).
Proof. vm_compute. split_and!; reflexivity. Qed.

(* ===================================================================== *)
(** ** The error message region *)
(* ===================================================================== *)

(** The text [rest] does not go on with a character of the class. *)
Definition stops (p : char -> bool) (rest : str) : Prop :=
  match rest with
  | x :: _ => p x = false
  | [] => True
  end.

(** The assignment after [pre], cut as the pattern of the code cuts it:
    white space (line feeds included) on both sides of the equals sign,
    as much as there is; then the value, which runs to the end of the line
    where it starts. *)
Definition value_at (text pre ws1 ws2 value rest : str) : Prop :=
  text = pre ++ EM ++ ws1 ++ c_equals :: ws2 ++ value ++ rest /\
  Forall (fun x => is_space x = true) ws1 /\
  Forall (fun x => is_space x = true) ws2 /\
  stops is_space (value ++ rest) /\
  Forall (fun x => x <> c_newline) value /\
  stops not_newline rest.

Definition first_value (text pre ws1 ws2 value rest : str) : Prop :=
  value_at text pre ws1 ws2 value rest /\
  forall pre' ws' rest',
    assignment_at text pre' ws' rest' -> length pre <= length pre'.

Lemma run_length_exact p l r :
  Forall (fun x => p x = true) l -> stops p r ->
  run_length p (l ++ r) = length l.
Proof.
  intros Hl Hr. rewrite run_length_app by done.
  destruct r as [|x r]; simpl in *; [lia|]. rewrite Hr. lia.
Qed.

Lemma Forall_not_newline l :
  Forall (fun x => not_newline x = true) l <->
  Forall (fun x => x <> c_newline) l.
Proof. apply Forall_iff. intros x. apply not_newline_true. Qed.

Lemma drop_EM_app rest : drop (length EM) (EM ++ rest) = rest.
Proof. by rewrite drop_app_length. Qed.

Lemma error_here_Some s a n :
  error_here s = Some (a, n) <->
  exists ws1 ws2 value rest,
    value_at s [] ws1 ws2 value rest /\
    a = 13 + length ws1 + 1 + length ws2 /\ n = length value.
Proof.
  unfold error_here, value_at. split.
  - destruct (is_prefix EM s) eqn:Hp; [|done].
    apply is_prefix_app in Hp as [s1 ->]. rewrite drop_EM_app.
    set (n1 := run_length is_space s1).
    destruct (drop n1 s1) as [|x s2] eqn:Hdrop; [done|].
    destruct (N.eqb_spec x c_equals) as [->|]; [|done].
    set (n2 := run_length is_space s2).
    set (t := drop n2 s2). intros [= <- <-].
    exists (take n1 s1), (take n2 s2), (take (run_length not_newline t) t),
      (drop (run_length not_newline t) t).
    rewrite !take_drop. split_and!.
    + cbn [app]. subst t. by rewrite take_drop, <- Hdrop, take_drop.
    + apply run_length_take.
    + apply run_length_take.
    + apply (run_length_stop is_space s2).
    + apply Forall_not_newline, run_length_take.
    + apply (run_length_stop not_newline t).
    + rewrite !length_take.
      pose proof (run_length_le is_space s1).
      pose proof (run_length_le is_space s2). lia.
    + rewrite length_take. pose proof (run_length_le not_newline t). lia.
  - intros (ws1 & ws2 & value & rest & (Heq & H1 & H2 & Hs & Hv & Hr) & -> & ->).
    cbn [app] in Heq. subst s.
    rewrite is_prefix_app_l, drop_EM_app.
    rewrite run_length_exact by done. rewrite drop_app_length.
    rewrite N.eqb_refl.
    rewrite run_length_exact by done. rewrite drop_app_length.
    rewrite run_length_exact; [done| |done].
    by apply Forall_not_newline.
Qed.

Lemma error_here_occurs ws rest :
  Forall (fun x => is_space x = true) ws ->
  is_Some (error_here (EM ++ ws ++ c_equals :: rest)).
Proof.
  intros Hws. unfold error_here.
  rewrite is_prefix_app_l, drop_EM_app.
  rewrite run_length_exact by done. rewrite drop_app_length.
  rewrite N.eqb_refl. eauto.
Qed.

Lemma error_here_None_at text j :
  (forall pre ws rest, assignment_at text pre ws rest -> j <> length pre) ->
  j <= length text ->
  error_here (drop j text) = None.
Proof.
  intros Hno Hj.
  destruct (error_here (drop j text)) as [[a n]|] eqn:Hc; [|done].
  apply error_here_Some in Hc
    as (ws1 & ws2 & value & rest & (Heq & H1 & _) & _).
  destruct (Hno (take j text) ws1 (ws2 ++ value ++ rest)).
  - split; [|done]. cbn [app] in Heq. by rewrite <- Heq, take_drop.
  - rewrite length_take. lia.
Qed.

Lemma first_value_leftmost text pre ws1 ws2 value rest :
  first_value text pre ws1 ws2 value rest ->
  leftmost error_here text 0
  = Some (length pre, (13 + length ws1 + 1 + length ws2, length value)).
Proof.
  intros [Hat Hmin]. pose proof Hat as (Heq & H1 & H2 & Hs & Hv & Hr).
  apply (leftmost_first error_here text 0 (length pre)).
  - rewrite Heq, length_app. lia.
  - rewrite Heq, drop_app_length. apply error_here_Some.
    exists ws1, ws2, value, rest. split_and!; try done.
  - intros j Hj. apply error_here_None_at.
    + intros pre' ws' rest' Hat'%Hmin. lia.
    + rewrite Heq, length_app. lia.
Qed.

Lemma leftmost_first_value text k a n :
  leftmost error_here text 0 = Some (k, (a, n)) ->
  exists pre ws1 ws2 value rest,
    first_value text pre ws1 ws2 value rest /\ length pre = k /\
    a = 13 + length ws1 + 1 + length ws2 /\ n = length value.
Proof.
  intros Hl. pose proof (leftmost_inv error_here text 0) as Hinv.
  rewrite Hl in Hinv. destruct Hinv as (j & -> & Hj & Hhere & Hfirst).
  apply error_here_Some in Hhere
    as (ws1 & ws2 & value & rest & (Heq & Hrest) & -> & ->).
  exists (take j text), ws1, ws2, value, rest.
  split; [|split; [rewrite length_take; simpl; lia|done]].
  split.
  - split; [|done]. cbn [app] in Heq. by rewrite <- Heq, take_drop.
  - intros pre' ws' rest' [Heq' Hws'].
    destruct (decide (length pre' < j)) as [Hlt|]; [|rewrite length_take; lia].
    specialize (Hfirst _ Hlt). rewrite Heq', drop_app_length in Hfirst.
    destruct (error_here_occurs ws' rest' Hws') as [m Hm]. congruence.
Qed.

Lemma leftmost_no_assignment text :
  leftmost error_here text 0 = None <-> ~ has_assignment text.
Proof.
  split.
  - intros Hl (pre & ws & rest & Heq & Hws).
    pose proof (leftmost_inv error_here text 0) as Hinv.
    rewrite Hl in Hinv. specialize (Hinv (length pre)).
    rewrite Heq, drop_app_length, length_app in Hinv.
    destruct (error_here_occurs ws rest Hws) as [m Hm].
    rewrite Hinv in Hm; [done|lia].
  - intros Hno. apply leftmost_none. intros j Hj.
    apply error_here_None_at; [|done].
    intros pre ws rest Hat. destruct Hno. by exists pre, ws, rest.
Qed.

(** The replacement of the message, on the text. *)
Lemma replace_error_message_first sorted_versions text pre ws1 ws2 value rest :
  first_value text pre ws1 ws2 value rest ->
  replace_error_message sorted_versions text
  = Some (pre ++ EM ++ ws1 ++ c_equals :: ws2
          ++ new_error_msg_val sorted_versions ++ rest).
Proof.
  intros Hfirst. rewrite replace_error_message_leftmost.
  rewrite (first_value_leftmost _ _ _ _ _ _ Hfirst).
  destruct Hfirst as [(-> & _) _]. f_equal.
  replace (length pre + (13 + length ws1 + 1 + length ws2))
    with (length (pre ++ EM ++ ws1 ++ c_equals :: ws2)).
  2:{ rewrite !length_app. cbn [length]. change (length EM) with 13. lia. }
  replace (pre ++ EM ++ ws1 ++ c_equals :: ws2 ++ value ++ rest)
    with ((pre ++ EM ++ ws1 ++ c_equals :: ws2) ++ value ++ rest).
  2:{ by rewrite <- !app_assoc. }
  rewrite splice_app. by rewrite <- !app_assoc.
Qed.

Lemma replace_error_message_Some sorted_versions text updated :
  replace_error_message sorted_versions text = Some updated ->
  exists pre ws1 ws2 value rest,
    first_value text pre ws1 ws2 value rest /\
    updated = pre ++ EM ++ ws1 ++ c_equals :: ws2
              ++ new_error_msg_val sorted_versions ++ rest.
Proof.
  intros Hr. pose proof Hr as Hr'.
  rewrite replace_error_message_leftmost in Hr'.
  destruct (leftmost error_here text 0) as [[k [a n]]|] eqn:Hl; [|done].
  apply leftmost_first_value in Hl
    as (pre & ws1 & ws2 & value & rest & Hfirst & _).
  exists pre, ws1, ws2, value, rest. split; [done|].
  rewrite (replace_error_message_first _ _ _ _ _ _ _ Hfirst) in Hr.
  congruence.
Qed.

Lemma replace_error_message_None sorted_versions text :
  replace_error_message sorted_versions text = None <-> ~ has_assignment text.
Proof.
  rewrite replace_error_message_leftmost, <- leftmost_no_assignment.
  destruct (leftmost error_here text 0) as [[k [a n]]|]; split; done.
Qed.

Lemma first_value_by_search text pre ws1 ws2 value rest a n :
  value_at text pre ws1 ws2 value rest ->
  leftmost error_here text 0 = Some (length pre, (a, n)) ->
  first_value text pre ws1 ws2 value rest.
Proof.
  intros Hat Hl. split; [done|].
  apply leftmost_first_value in Hl
    as (pre0 & ? & ? & ? & ? & [_ Hmin] & Hlen & _).
  intros pre' ws' rest' Hat'. rewrite <- Hlen. by eapply Hmin.
Qed.










(* ===================================================================== *)
(** ** What the updater leaves alone *)
(* ===================================================================== *)










(* ===================================================================== *)
(** ** The sort step *)
(* ===================================================================== *)

(** *** The order of sequences *)

Section seq_order.
Context {A : Type} (lt eqb : A -> A -> bool).
Hypothesis eqb_eq : forall x y, eqb x y = true <-> x = y.
Hypothesis lt_asym : forall x y, lt x y = true -> lt y x = false.
Hypothesis lt_total : forall x y, lt x y = false -> lt y x = false -> x = y.
Hypothesis le_trans :
  forall x y z, lt y x = false -> lt z y = false -> lt z x = false.

Lemma seq_lt_asym a b : seq_lt lt eqb a b = true -> seq_lt lt eqb b a = false.
Proof using eqb_eq lt_asym.
  revert b. induction a as [|x a IH]; intros [|y b]; simpl; try done.
  destruct (eqb x y) eqn:Hxy.
  - apply eqb_eq in Hxy as ->.
    rewrite (proj2 (eqb_eq y y) eq_refl). apply IH.
  - destruct (eqb y x) eqn:Hyx.
    + apply eqb_eq in Hyx as ->.
      by rewrite (proj2 (eqb_eq x x) eq_refl) in Hxy.
    + apply lt_asym.
Qed.

Lemma seq_le_trans a b c :
  seq_lt lt eqb b a = false -> seq_lt lt eqb c b = false ->
  seq_lt lt eqb c a = false.
Proof using eqb_eq lt_total le_trans.
  revert b c. induction a as [|x a IH]; intros [|y b] [|z c]; simpl;
    try done.
  destruct (eqb y x) eqn:Hyx, (eqb z y) eqn:Hzy.
  - apply eqb_eq in Hyx as ->. rewrite Hzy. apply IH.
  - apply eqb_eq in Hyx as ->. by rewrite Hzy.
  - apply eqb_eq in Hzy as ->. by rewrite Hyx.
  - intros Hyx' Hzy'. destruct (eqb z x) eqn:Hzx.
    + apply eqb_eq in Hzx as ->.
      rewrite (lt_total _ _ Hyx' Hzy') in Hyx.
      by rewrite (proj2 (eqb_eq x x) eq_refl) in Hyx.
    + by eapply le_trans.
Qed.

(** The order is the one of the first place where the sequences differ,
    a proper prefix coming first. *)
Lemma seq_lt_spec a b :
  seq_lt lt eqb a b = true <->
  exists p, (exists y b', a = p /\ b = p ++ y :: b') \/
            (exists x y a' b', a = p ++ x :: a' /\ b = p ++ y :: b' /\
                               x <> y /\ lt x y = true).
Proof using eqb_eq.
  revert b. induction a as [|x a IH]; intros [|y b]; simpl.
  - split; [done|].
    intros (p & [(y & b' & Ha & Hb) | (x & y & a' & b' & Ha & _)]);
      by destruct p.
  - split; [|done]. intros _. exists []. left. by exists y, b.
  - split; [done|].
    intros (p & [(y & b' & _ & Hb) | (x' & y & a' & b' & _ & Hb & _)]);
      by destruct p.
  - destruct (eqb x y) eqn:Hxy.
    + apply eqb_eq in Hxy as ->. rewrite IH. split.
      * intros (p & [(z & b' & -> & ->) | (u & v & a' & b' & -> & -> & Hne & Hlt)]).
        -- exists (y :: p). left. by exists z, b'.
        -- exists (y :: p). right. by exists u, v, a', b'.
      * intros (p & [(z & b' & Ha & Hb) | (u & v & a' & b' & Ha & Hb & Hne & Hlt)]).
        -- destruct p as [|c p]; [done|]. injection Ha as -> ->.
           injection Hb as ->. exists p. left. by exists z, b'.
        -- destruct p as [|c p].
           ++ injection Ha as -> ->. injection Hb as -> ->. done.
           ++ injection Ha as -> ->. injection Hb as ->.
              exists p. right. by exists u, v, a', b'.
    + assert (x <> y) as Hne
        by (intros ->; by rewrite (proj2 (eqb_eq y y) eq_refl) in Hxy).
      split.
      * intros Hlt. exists []. right. by exists x, y, a, b.
      * intros (p & [(z & b' & Ha & Hb) | (u & v & a' & b' & Ha & Hb & _ & Hlt)]).
        -- subst p. injection Hb as Hb _. congruence.
        -- destruct p as [|c p].
           ++ by injection Ha as -> ->; injection Hb as -> ->.
           ++ injection Ha as -> ->. injection Hb as -> ->. done.
Qed.

End seq_order.

Ltac ltb_lia :=
  intros;
  repeat match goal with
    | H : Z.ltb _ _ = true |- _ => apply Z.ltb_lt in H
    | H : Z.ltb _ _ = false |- _ => apply Z.ltb_ge in H
    | H : N.ltb _ _ = true |- _ => apply N.ltb_lt in H
    | H : N.ltb _ _ = false |- _ => apply N.ltb_ge in H
    end;
  try apply Z.ltb_ge; try apply N.ltb_ge; lia.

Lemma key_lt_asym a b : key_lt a b = true -> key_lt b a = false.
Proof. apply seq_lt_asym; [apply Z.eqb_eq|ltb_lia]. Qed.

Lemma key_le_trans a b c :
  key_lt b a = false -> key_lt c b = false -> key_lt c a = false.
Proof. apply seq_le_trans; [apply Z.eqb_eq|ltb_lia|ltb_lia]. Qed.

Lemma str_lt_asym a b : str_lt a b = true -> str_lt b a = false.
Proof. apply seq_lt_asym; [apply N.eqb_eq|ltb_lia]. Qed.

Lemma str_le_trans a b c :
  str_lt b a = false -> str_lt c b = false -> str_lt c a = false.
Proof. apply seq_le_trans; [apply N.eqb_eq|ltb_lia|ltb_lia]. Qed.

(** *** The builtin [sorted] *)

Section sorted_facts.
Context {K A : Type} (lt : K -> K -> bool).
Hypothesis lt_asym : forall x y, lt x y = true -> lt y x = false.
Hypothesis le_trans :
  forall x y z, lt y x = false -> lt z y = false -> lt z x = false.

(** [x] may come before [y]. *)
Definition key_le (x y : K * A) : Prop := lt (fst y) (fst x) = false.

Lemma insert_perm (x : K * A) l : Permutation (insert lt x l) (x :: l).
Proof.
  induction l as [|y l IH]; simpl; [done|].
  destruct (lt (fst y) (fst x)); [|done].
  rewrite IH. apply perm_swap.
Qed.

Lemma sorted_pairs_perm (l : list (K * A)) : Permutation (sorted_pairs lt l) l.
Proof.
  induction l as [|x l IH]; simpl; [done|].
  by rewrite insert_perm, IH.
Qed.

Lemma insert_sorted (x : K * A) l :
  StronglySorted key_le l -> StronglySorted key_le (insert lt x l).
Proof using lt_asym le_trans.
  induction 1 as [|y l Hl IH Hy]; simpl.
  - repeat constructor.
  - destruct (lt (fst y) (fst x)) eqn:Hyx.
    + constructor; [done|].
      rewrite insert_perm. constructor; [|done].
      by apply lt_asym.
    + constructor; [by constructor|].
      constructor; [done|].
      eapply Forall_impl; [exact Hy|].
      intros z Hz. unfold key_le in *. by eapply le_trans.
Qed.

Lemma sorted_pairs_sorted (l : list (K * A)) : StronglySorted key_le (sorted_pairs lt l).
Proof using lt_asym le_trans.
  induction l as [|x l IH]; simpl; [constructor|]. by apply insert_sorted.
Qed.

(** The sort is stable: the items of one key keep the order they had. *)
Lemma insert_stable (same : K -> bool) (x : K * A) l :
  (forall y, same (fst x) = true -> same y = true -> lt y (fst x) = false) ->
  List.filter (fun p => same (fst p)) (insert lt x l)
  = List.filter (fun p => same (fst p)) (x :: l).
Proof.
  intros Hsame. induction l as [|y l IH]; [done|].
  cbn [insert]. destruct (lt (fst y) (fst x)) eqn:Hyx; [|done].
  cbn [List.filter] in *. rewrite IH.
  destruct (same (fst x)) eqn:Hx, (same (fst y)) eqn:Hy; try done.
  by rewrite Hsame in Hyx.
Qed.

Lemma sorted_pairs_stable (same : K -> bool) (l : list (K * A)) :
  (forall x y, same x = true -> same y = true -> lt y x = false) ->
  List.filter (fun p => same (fst p)) (sorted_pairs lt l)
  = List.filter (fun p => same (fst p)) l.
Proof.
  intros Hsame. induction l as [|x l IH]; [done|].
  cbn [sorted_pairs]. rewrite insert_stable by eauto.
  cbn [List.filter]. by rewrite IH.
Qed.

End sorted_facts.

(** *** Lines 98-103 *)

Section sort_step.

Variable int : str -> option Z.

(** Every piece of the version between dots is read by [int]. *)
Definition parses (v : str) : Prop :=
  Forall (fun u => is_Some (int u)) (split c_dot v).

(** [a] is not after [b] in the numeric order: the sequence of integers of
    [b] is not smaller than the one of [a]. *)
Definition numeric_le (a b : str) : Prop :=
  exists ka kb,
    numeric_key int a = Some ka /\ numeric_key int b = Some kb /\
    key_lt kb ka = false.

(** [a] is not after [b] in the order of the strings. *)
Definition lexical_le (a b : str) : Prop := str_lt b a = false.

Lemma parses_numeric_key v : parses v <-> is_Some (numeric_key int v).
Proof. unfold parses, numeric_key. by rewrite mapM_is_Some. Qed.

Lemma StronglySorted_map {X Y : Type} (R : X -> X -> Prop)
    (R' : Y -> Y -> Prop) (P : X -> Prop) (f : X -> Y) l :
  (forall x y, P x -> P y -> R x y -> R' (f x) (f y)) ->
  Forall P l -> StronglySorted R l -> StronglySorted R' (map f l).
Proof.
  intros HR HP Hs. induction Hs as [|x l Hs IH Hx]; simpl; constructor.
  - apply IH. by apply Forall_cons in HP as [_ ?].
  - apply Forall_cons in HP as [Px Pl].
    apply Forall_map, Forall_forall. intros y Hy.
    apply HR; [done| |].
    + by eapply Forall_forall in Pl.
    + by eapply Forall_forall in Hx.
Qed.

Lemma sort_strings_perm vs : Permutation (sort_strings int vs) vs.
Proof.
  unfold sort_strings, sorted.
  destruct (mapM (numeric_key int) vs) as [keys|] eqn:Hkeys.
  - rewrite sorted_pairs_perm. rewrite snd_zip; [done|].
    apply length_mapM in Hkeys. lia.
  - rewrite sorted_pairs_perm, map_map. simpl. by rewrite map_id.
Qed.

Lemma sort_strings_numeric vs keys :
  mapM (numeric_key int) vs = Some keys ->
  StronglySorted numeric_le (sort_strings int vs).
Proof.
  intros Hkeys. unfold sort_strings, sorted. rewrite Hkeys.
  apply (StronglySorted_map (key_le key_lt) numeric_le
           (fun p => numeric_key int (snd p) = Some (fst p))).
  - intros [ka a] [kb b] Ha Hb Hle. by exists ka, kb.
  - rewrite sorted_pairs_perm.
    apply mapM_Some_1 in Hkeys. clear -Hkeys.
    induction Hkeys; simpl; by constructor.
  - apply sorted_pairs_sorted; [apply key_lt_asym|apply key_le_trans].
Qed.

Lemma sort_strings_lexical vs :
  mapM (numeric_key int) vs = None ->
  StronglySorted lexical_le (sort_strings int vs).
Proof.
  intros Hkeys. unfold sort_strings, sorted. rewrite Hkeys.
  apply (StronglySorted_map (key_le str_lt) lexical_le
           (fun p => snd p = fst p)).
  - intros [ka a] [kb b] Ha Hb Hle. simpl in *. by subst.
  - rewrite sorted_pairs_perm. apply Forall_map, Forall_true. done.
  - apply sorted_pairs_sorted; [apply str_lt_asym|apply str_le_trans].
Qed.

Lemma numeric_key_numerals (v : str) (pieces : list str) (k : list Z) :
  reads_numerals int ->
  split c_dot v = pieces ->
  Forall2 (fun u z => numeral u = Some z) pieces k ->
  numeric_key int v = Some k.
Proof.
  intros Hint <- Hk. unfold numeric_key. apply mapM_Some_2.
  eapply Forall2_impl; [exact Hk|]. intros u z. apply Hint.
Qed.

(** C4. On versions that are strings the sort step returns a rearrangement
    of them and leaves the files alone. When every piece of every version,
    cut at the dots, is read by [int], the result is in the order of the
    sequences of integers, compared place by place, and nothing is logged;
    when some piece of some version is not, the result is in the order of
    the strings and the warning is logged. With an [int] that reads the
    decimal numerals, 1.30, 1.9, 1.29 come out as 1.9, 1.29, 1.30. *)
Theorem sort_step_orders vs w :
  (exists sorted_versions w',
     sort_versions int (map JStr vs) w = (Return sorted_versions, w') /\
     files w' = files w /\
     Permutation sorted_versions vs /\
     ((Forall parses vs /\ log w' = log w /\
       StronglySorted numeric_le sorted_versions) \/
      (Exists (fun v => ~ parses v) vs /\
       log w' = log w ++ [(WARNING, LexicalFallback)] /\
       StronglySorted lexical_le sorted_versions))) /\
  (reads_numerals int ->
   fst (sort_versions int
          (map JStr [codes "1.30"; codes "1.9"; codes "1.29"]) w)
   = Return [codes "1.9"; codes "1.29"; codes "1.30"]).
Proof.
  split.
  - exists (sort_strings int vs), (World (files w) (log w ++ sort_log int vs)).
    split; [apply sort_versions_strings|]. split; [done|].
    split; [apply sort_strings_perm|]. unfold sort_log.
    destruct (mapM (numeric_key int) vs) as [keys|] eqn:Hkeys.
    + left. split_and!.
      * apply Forall_forall. intros v Hv. apply parses_numeric_key.
        assert (is_Some (mapM (numeric_key int) vs)) as Hsome by eauto.
        apply mapM_is_Some_1 in Hsome.
        by eapply Forall_forall in Hsome.
      * apply app_nil_r.
      * by eapply sort_strings_numeric.
    + right. split_and!.
      * apply mapM_None_1 in Hkeys.
        eapply Exists_impl; [exact Hkeys|].
        intros v Hv [k Hk]%parses_numeric_key. congruence.
      * done.
      * by apply sort_strings_lexical.
  - intros Hint. rewrite sort_versions_strings. cbn [fst]. f_equal.
    unfold sort_strings. cbn [mapM].
    rewrite (numeric_key_numerals (codes "1.30") [codes "1"; codes "30"]
               [1; 30]%Z Hint) by (repeat constructor).
    rewrite (numeric_key_numerals (codes "1.9") [codes "1"; codes "9"]
               [1; 9]%Z Hint) by (repeat constructor).
    rewrite (numeric_key_numerals (codes "1.29") [codes "1"; codes "29"]
               [1; 29]%Z Hint) by (repeat constructor).
    reflexivity.
Qed.

End sort_step.

(** [int_ascii] reads the decimal numerals. *)
Lemma digit_val_range c d :
  digit_val c = Some d -> (48 <= c)%N /\ (c <= 57)%N.
Proof.
  unfold digit_val.
  destruct (N.leb_spec 48 c), (N.leb_spec c 57); simpl; try done.
Qed.

Lemma numeral_value_digits acc s z :
  numeral_value acc s = Some z -> Forall (fun c => is_Some (digit_val c)) s.
Proof.
  revert acc. induction s as [|c s IH]; intros acc; simpl; [constructor|].
  destruct (digit_val c) as [d|] eqn:Hd; [|done].
  intros H. constructor; [eauto|]. by eapply IH.
Qed.

Lemma digits_value_numeral acc after s z :
  numeral_value acc s = Some z -> s <> [] \/ after = true ->
  digits_value acc after s = Some z.
Proof.
  revert acc after. induction s as [|c s IH]; intros acc after; simpl.
  - intros [= <-] [?| ->]; done.
  - destruct (digit_val c) as [d|]; [|done].
    intros H _. apply IH; [done|]. by right.
Qed.

Lemma lstrip_digit c s : is_Some (digit_val c) -> lstrip (c :: s) = c :: s.
Proof.
  intros [d [H1 H2]%digit_val_range]. simpl. unfold is_c_space.
  destruct (N.leb_spec 9 c), (N.leb_spec c 13), (N.eqb_spec c 32);
    simpl; try done; lia.
Qed.

Lemma strip_digits s :
  Forall (fun c => is_Some (digit_val c)) s -> strip s = s.
Proof.
  intros Hs. unfold strip.
  assert (forall l, Forall (fun c => is_Some (digit_val c)) l -> lstrip l = l)
    as Hl.
  { intros [|c l] Hcl; [done|]. apply lstrip_digit.
    by apply Forall_cons in Hcl as [? _]. }
  rewrite (Hl s Hs), Hl, rev_involutive; [done|].
  by apply Forall_rev.
Qed.

Lemma int_ascii_reads_numerals : reads_numerals int_ascii.
Proof.
  intros s z Hs. unfold numeral in Hs. destruct s as [|c s]; [done|].
  pose proof (numeral_value_digits _ _ _ Hs) as Hd.
  unfold int_ascii. rewrite (strip_digits _ Hd).
  apply Forall_cons in Hd as [[d [H1 H2]%digit_val_range] _].
  destruct (N.eqb_spec c 43); [lia|]. destruct (N.eqb_spec c 45); [lia|].
  apply digits_value_numeral; [done|by left].
Qed.

Lemma sort_step_orders_witness :
  fst (sort_versions int_ascii
         (map JStr [codes "1.30"; codes "1.9"; codes "1.29"]) empty_world)
  = Return [codes "1.9"; codes "1.29"; codes "1.30"].
Proof.
  apply (proj2 (sort_step_orders int_ascii [] empty_world)).
  apply int_ascii_reads_numerals.
Defined.

(* ===================================================================== *)
(** ** Running the updater again *)
(* ===================================================================== *)

(** *** The searches depend on little of what follows *)

Lemma is_prefix_app_long p v (t : str) :
  length p <= length v -> is_prefix p (v ++ t) = is_prefix p v.
Proof.
  revert v. induction p as [|a p IH]; intros [|b v]; simpl; try done; [lia|].
  intros Hlen. rewrite IH; [done|lia].
Qed.

(** Up to the closing bracket, or a line feed, or the end of [u]. *)
Lemma list_end_app u t :
  list_end (u ++ t) =
  match list_end u with
  | Some n => Some n
  | None =>
      if forallb not_newline u
      then (fun n => length u + n) <$> list_end t
      else None
  end.
Proof.
  induction u as [|x u IH]; simpl.
  - by destruct (list_end t).
  - destruct (N.eqb x c_rbracket); [done|].
    destruct (not_newline x); [|done]. simpl. rewrite IH.
    destruct (list_end u); [done|].
    destruct (forallb not_newline u); [|done].
    by destruct (list_end t).
Qed.

Lemma condition_here_app v t :
  length LIT <= length v ->
  condition_here (v ++ t) =
  if is_prefix LIT v then list_end (drop (length LIT) v ++ t) else None.
Proof.
  intros Hlen. unfold condition_here.
  rewrite is_prefix_app_long by done.
  by rewrite drop_app_le by done.
Qed.

(** Whether the pattern of the list matches at a place before a list does
    not depend on what that list holds. *)
Lemma condition_here_stable v t1 t2 :
  length LIT <= length v ->
  is_Some (list_end t1) -> is_Some (list_end t2) ->
  condition_here (v ++ t1) = None -> condition_here (v ++ t2) = None.
Proof.
  intros Hlen [n1 H1] [n2 H2]. rewrite !condition_here_app by done.
  destruct (is_prefix LIT v); [|done]. rewrite !list_end_app, H1, H2.
  destruct (list_end (drop (length LIT) v)); [done|].
  by destruct (forallb not_newline (drop (length LIT) v)).
Qed.

Lemma run_length_app_stop p v (t : str) :
  Exists (fun x => p x = false) v ->
  run_length p (v ++ t) = run_length p v /\ run_length p v < length v.
Proof.
  induction 1 as [x v Hx|x v _ IH]; simpl.
  - rewrite Hx. lia.
  - destruct (p x); [|lia]. destruct IH as [-> ?]. lia.
Qed.

(** Whether the pattern of the message matches at a place does not depend
    on what comes after the identifier and a later character that is not
    white space. *)
Lemma error_here_stable v t1 t2 :
  Exists (fun x => is_space x = false) (drop (length EM) v) ->
  error_here (v ++ t1) = None -> error_here (v ++ t2) = None.
Proof.
  intros Hex.
  assert (length EM <= length v) as Hlen.
  { destruct (decide (length EM <= length v)) as [|Hgt]; [done|].
    rewrite drop_ge in Hex by lia. by apply Exists_nil in Hex. }
  unfold error_here. cbv zeta. rewrite !is_prefix_app_long by done.
  destruct (is_prefix EM v); [|done].
  rewrite (drop_app_le v t1), (drop_app_le v t2) by done.
  destruct (run_length_app_stop is_space _ t1 Hex) as [-> Hn].
  destruct (run_length_app_stop is_space _ t2 Hex) as [-> _].
  rewrite (drop_app_le _ t1), (drop_app_le _ t2) by lia.
  destruct (drop (run_length is_space (drop (length EM) v))
              (drop (length EM) v)) as [|x s2] eqn:Hd.
  - apply (f_equal length) in Hd. rewrite length_drop in Hd.
    cbn [length] in Hd. lia.
  - simpl. by destruct (N.eqb x c_equals).
Qed.

(** *** The texts that the updater writes *)

Definition plain (x : char) : Prop := x <> c_newline /\ x <> c_rbracket.

Lemma join_Forall (P : char -> Prop) sep (pieces : list str) :
  Forall P sep -> Forall (Forall P) pieces -> Forall P (join sep pieces).
Proof.
  intros Hsep. induction 1 as [|x pieces Hx Hp IH]; [constructor|].
  cbn [join]. destruct pieces as [|y pieces]; [done|].
  apply Forall_app. split; [done|]. apply Forall_app. by split.
Qed.

Lemma quoted_Forall (P : char -> Prop) s :
  P c_dquote -> Forall P s -> Forall P (quoted s).
Proof.
  intros Hq Hs. unfold quoted. constructor; [done|].
  apply Forall_app. split; [done|]. by constructor.
Qed.

Lemma new_list_str_plain sorted_versions :
  Forall (Forall plain) sorted_versions ->
  Forall plain (new_list_str sorted_versions).
Proof.
  intros Hs. unfold new_list_str. apply join_Forall.
  - repeat constructor; discriminate.
  - apply Forall_map. eapply Forall_impl; [exact Hs|].
    intros v Hv. apply quoted_Forall; [|done]. split; discriminate.
Qed.



(** *** The second run *)


Lemma first_list_nothing_before content pre inner post j :
  first_list content pre inner post -> j < length pre ->
  condition_here (drop j content) = None.
Proof.
  intros ([Heq _] & _ & Hmin) Hj. apply condition_here_None_at.
  - intros pre' inner' post' Hat%Hmin. lia.
  - rewrite Heq, length_app. lia.
Qed.

Lemma first_value_nothing_before text pre ws1 ws2 value rest j :
  first_value text pre ws1 ws2 value rest -> j < length pre ->
  error_here (drop j text) = None.
Proof.
  intros [(Heq & _) Hmin] Hj. apply error_here_None_at.
  - intros pre' ws' rest' Hat%Hmin. lia.
  - rewrite Heq, length_app. lia.
Qed.

(** After the replacement, the list that was replaced is still the first
    one, whatever follows its closing bracket. *)
Lemma replaced_list_is_first content pre inner post list_text post2 :
  first_list content pre inner post ->
  Forall plain list_text ->
  first_list (pre ++ LIT ++ list_text ++ c_rbracket :: post2)
    pre list_text post2.
Proof.
  intros Hfirst Hplain.
  assert (Forall (fun x => x <> c_rbracket /\ x <> c_newline) list_text)
    as Hplain'.
  { eapply Forall_impl; [exact Hplain|]. by intros x [? ?]. }
  apply first_list_by_search; [done|].
  apply (leftmost_first condition_here _ 0 (length pre)).
  - rewrite length_app. lia.
  - rewrite drop_app_length. apply condition_here_Some.
    by exists list_text, post2.
  - intros j Hj.
    pose proof (first_list_nothing_before _ _ _ _ j Hfirst Hj) as Hnone.
    destruct Hfirst as ([-> Hnl] & _ & _).
    rewrite (app_assoc pre LIT) in Hnone |- *.
    rewrite drop_app_le in Hnone |- * by (rewrite length_app; lia).
    eapply condition_here_stable; [| | |exact Hnone].
    + rewrite length_drop, length_app. lia.
    + by apply list_end_occurs.
    + apply list_end_occurs. eapply Forall_impl; [exact Hplain|].
      by intros x [? ?].
Qed.

(** After the replacement, the message that was written is the value of
    the first assignment. *)
Lemma replaced_value_is_first text pre ws1 ws2 value rest message :
  first_value text pre ws1 ws2 value rest ->
  Forall (fun x => x <> c_newline) message ->
  stops is_space message -> message <> [] ->
  first_value (pre ++ EM ++ ws1 ++ c_equals :: ws2 ++ message ++ rest)
    pre ws1 ws2 message rest.
Proof.
  intros Hfirst Hline Hhead Hne.
  pose proof Hfirst as [(Heq & H1 & H2 & _ & _ & Hrest) _].
  assert (value_at (pre ++ EM ++ ws1 ++ c_equals :: ws2 ++ message ++ rest)
            pre ws1 ws2 message rest) as Hat.
  { split_and!; try done. by destruct message. }
  eapply first_value_by_search; [exact Hat|].
  apply (leftmost_first error_here _ 0 (length pre)).
  - rewrite length_app. lia.
  - rewrite drop_app_length. apply error_here_Some.
    exists ws1, ws2, message, rest. split_and!; try done.
    destruct Hat as (_ & ? & ? & ? & ? & ?). by split_and!.
  - intros j Hj.
    pose proof (first_value_nothing_before _ _ _ _ _ _ j Hfirst Hj) as Hnone.
    rewrite Heq in Hnone.
    rewrite (app_assoc pre EM) in Hnone |- *.
    rewrite drop_app_le in Hnone |- * by (rewrite length_app; lia).
    eapply error_here_stable; [|exact Hnone].
    rewrite drop_drop.
    change EM with (codes "error_messag" ++ [101%N]).
    rewrite (app_assoc pre), drop_app_le.
    2:{ rewrite !length_app. cbn [length codes map list_ascii_of_string].
        simpl. lia. }
    apply Exists_app. right. by constructor.
Qed.

Lemma new_error_msg_val_head sorted_versions :
  stops is_space (new_error_msg_val sorted_versions) /\
  new_error_msg_val sorted_versions <> [].
Proof. by split. Qed.






(* ===================================================================== *)
(** ** A file without the message *)
(* ===================================================================== *)










(* ===================================================================== *)
(** ** The ways a run ends *)
(* ===================================================================== *)

(** *** The fetcher and the files *)



(** *** The updater: it writes its file and returns, or it ends the
    process and leaves the files alone *)

Lemma update_cases int path versions w :
  (exists written w',
     update_terraform_file int path versions w = (Return tt, w') /\
     is_Some (files w !! path) /\
     files w' = <[path := written]> (files w)) \/
  (exists w',
     update_terraform_file int path versions w = (Exit 1, w') /\
     files w' = files w).
Proof.
  destruct (files w !! path) as [content|] eqn:Hfile.
  2:{ right. unfold update_terraform_file. step_m.
      rewrite bool_decide_false by (rewrite Hfile; by intros [? ?]).
      cbn [negb]. eexists. split; [reflexivity|done]. }
  unfold update_terraform_file. step_m.
  rewrite bool_decide_true by eauto. cbn [negb]. rewrite !Hfile.
  destruct (sort_versions_files int versions w) as (o & w1 & -> & Hw1 & Hexit).
  destruct o as [sorted_versions|e|n].
  - destruct (replace_list sorted_versions content) as [new_content|].
    + left.
      destruct (replace_error_message sorted_versions new_content)
        as [updated|]; eexists _, _;
        (split; [reflexivity|]); (split; [eauto|]); cbn [files];
        by rewrite Hw1.
    + right. eexists. split; [reflexivity|done].
  - right. eexists. split; [reflexivity|done].
  - by destruct (Hexit n).
Qed.






(** *** Failures of the fetch *)





(** *** Answers that give no version *)

Lemma active_loop_none_active records acc :
  Forall (fun r => is_dict r = true /\ is_active r = false) records ->
  active_loop records acc = Return acc.
Proof.
  induction 1 as [|record records [Hdict Hact] _ IH]; [done|].
  destruct (py_get_isEol record Hdict) as (v & Hget & Hv).
  cbn [active_loop]. by rewrite Hget, Hv, Hact.
Qed.

(** X4. When the answer has one of the two shapes and none of its
    records, all objects, has isEol equal to the boolean false (an empty
    array is such an answer), the fetcher warns and returns the empty
    list; [main] then logs an error and ends the process with status 1
    before the updater is called: no file is read or written. *)
Theorem no_active_release_aborts int argv data records w :
  recognized_shape data records ->
  Forall (fun r => is_dict r = true /\ is_active r = false) records ->
  let fetched_log :=
    log w ++ [(INFO, FetchingVersions); (WARNING, NoActiveVersions);
              (INFO, FoundActiveVersions [])] in
  get_active_eks_versions (json_reply data) w
  = (Return [], World (files w) fetched_log) /\
  main int argv (json_reply data) w
  = (Exit 1, World (files w) (fetched_log ++ [(ERROR, NoVersionsRetrieved)])).
Proof.
  intros Hshape Hrec fetched_log. unfold fetched_log.
  pose proof (active_loop_none_active records [] Hrec) as Hloop.
  unfold main, get_active_eks_versions, json_reply. step_m.
  unfold fetch. step_m. cbn [Z.eqb Pos.eqb negb].
  rewrite !(select_releases_recognized _ _ _ Hshape).
  cbn [py_iter]. rewrite Hloop. cbn [files log].
  rewrite <- !app_assoc. done.
Qed.

Lemma no_active_release_aborts_witness :
  get_active_eks_versions
    (json_reply (JArr [release "1.27" (Some true); release "1.26" None]))
    empty_world
  = (Return [],
     World ∅ [(INFO, FetchingVersions); (WARNING, NoActiveVersions);
              (INFO, FoundActiveVersions [])]) /\
  main int_ascii []
    (json_reply (JArr [release "1.27" (Some true); release "1.26" None]))
    empty_world
  = (Exit 1,
     World ∅ [(INFO, FetchingVersions); (WARNING, NoActiveVersions);
              (INFO, FoundActiveVersions []); (ERROR, NoVersionsRetrieved)]).
Proof.
  apply (no_active_release_aborts int_ascii []
           (JArr [release "1.27" (Some true); release "1.26" None])
           [release "1.27" (Some true); release "1.26" None] empty_world).
  - left. reflexivity.
  - repeat constructor.
Defined.

Lemma active_loop_not_an_object before bad after acc :
  Forall readable before -> is_dict bad = false ->
  active_loop (before ++ bad :: after) acc = Raise AttributeError.
Proof.
  intros Hbefore Hbad. revert acc.
  induction Hbefore as [|record records [Hdict Hname] _ IH]; intros acc.
  - cbn [app active_loop]. by destruct bad.
  - destruct (py_get_isEol record Hdict) as (v & Hget & Hv).
    cbn [app active_loop]. rewrite Hget, Hv.
    destruct (is_active record) eqn:Hact; [|apply IH].
    destruct (Hname eq_refl) as [name Hn].
    destruct record as [| | | | |fields]; try discriminate.
    cbn [py_getitem]. simpl in Hn. rewrite Hn. apply IH.
Qed.

(** X5. When the array of an answer of either shape holds an entry that
    is not an object, after entries that the fetcher can read, the loop
    raises [AttributeError] at that entry; nothing is returned for the
    entries before it, [main] logs the exception and ends the process with
    status 1, and no file is touched. *)
Theorem entry_not_an_object_aborts int argv data before bad after w :
  recognized_shape data (before ++ bad :: after) ->
  Forall readable before ->
  is_dict bad = false ->
  get_active_eks_versions (json_reply data) w
  = (Raise AttributeError,
     World (files w) (log w ++ [(INFO, FetchingVersions)])) /\
  main int argv (json_reply data) w
  = (Exit 1,
     World (files w)
       (log w ++ [(INFO, FetchingVersions);
                  (ERROR, ScriptFailed AttributeError)])).
Proof.
  intros Hshape Hbefore Hbad.
  pose proof (active_loop_not_an_object before bad after [] Hbefore Hbad)
    as Hloop.
  unfold main, get_active_eks_versions, json_reply. step_m.
  unfold fetch. step_m. cbn [Z.eqb Pos.eqb negb].
  rewrite !(select_releases_recognized _ _ _ Hshape).
  cbn [py_iter]. rewrite Hloop. cbn [files log].
  rewrite <- !app_assoc. done.
Qed.

Lemma entry_not_an_object_aborts_witness :
  get_active_eks_versions
    (json_reply (JArr [release "1.30" (Some false); JStr (codes "1.29")]))
    empty_world
  = (Raise AttributeError, World ∅ [(INFO, FetchingVersions)]) /\
  main int_ascii []
    (json_reply (JArr [release "1.30" (Some false); JStr (codes "1.29")]))
    empty_world
  = (Exit 1,
     World ∅ [(INFO, FetchingVersions);
              (ERROR, ScriptFailed AttributeError)]).
Proof.
  apply (entry_not_an_object_aborts int_ascii []
           (JArr [release "1.30" (Some false); JStr (codes "1.29")])
           [release "1.30" (Some false)] (JStr (codes "1.29")) []
           empty_world).
  - left. reflexivity.
  - repeat constructor. simpl. eauto.
  - reflexivity.
Defined.

(** *** Failures of the updater *)

(** X6. When there is no file at the path, the updater logs that and ends
    the process with status 1 before it sorts or searches anything: no
    warning of the sort is logged whatever the versions are, and no file is
    created. So does [main] when the fetcher has returned versions. *)
Theorem missing_file_is_fatal int path versions w :
  files w !! path = None ->
  let w' := World (files w) (log w ++ [(ERROR, FileNotFound path)]) in
  update_terraform_file int path versions w = (Exit 1, w') /\
  files w' !! path = None /\
  forall argv r w0 v active,
    versions = v :: active -> arg_path argv = path ->
    get_active_eks_versions r w0 = (Return versions, w) ->
    main int argv r w0 = (Exit 1, w').
Proof.
  intros Hfile w'.
  assert (update_terraform_file int path versions w = (Exit 1, w')) as Hup.
  { unfold update_terraform_file. step_m.
    rewrite bool_decide_false by (rewrite Hfile; by intros [? ?]). done. }
  split_and!; try done.
  intros argv r w0 v active -> <- Hfetch.
  by rewrite (main_runs_updater int argv r w0 v active w Hfetch).
Qed.

Lemma missing_file_is_fatal_witness :
  update_terraform_file int_ascii tf_path [JStr (codes "1.x")] empty_world
  = (Exit 1, World ∅ [(ERROR, FileNotFound tf_path)]).
Proof.
  apply (missing_file_is_fatal int_ascii tf_path [JStr (codes "1.x")]
           empty_world).
  reflexivity.
Defined.

Lemma strings_of_not_all versions :
  Exists (fun v => is_str v = false) versions -> strings_of versions = None.
Proof.
  induction 1 as [v versions Hv|v versions _ IH]; cbn [strings_of].
  - by destruct v.
  - destruct v; try done. by rewrite IH.
Qed.

Lemma numeric_keys_not_all int versions :
  Exists (fun v => is_str v = false) versions ->
  numeric_keys int versions = Raise AttributeError \/
  numeric_keys int versions = Raise ValueError.
Proof.
  induction 1 as [v versions Hv|v versions _ IH]; cbn [numeric_keys].
  - left. by destruct v.
  - destruct v; try by left.
    destruct (numeric_key int s); [|by right].
    by destruct IH as [-> | ->]; [left|right].
Qed.

(** The sort step on versions that are not all strings. *)
Lemma sort_versions_not_all int versions w :
  Exists (fun v => is_str v = false) versions ->
  (sort_versions int versions w = (Raise AttributeError, w)) \/
  (sort_versions int versions w
   = (Raise TypeError,
      World (files w) (log w ++ [(WARNING, LexicalFallback)]))).
Proof.
  intros Hex. unfold sort_versions. step_m.
  destruct (numeric_keys_not_all int versions Hex) as [-> | ->].
  - by left.
  - right. unfold lexical_sorted. by rewrite (strings_of_not_all _ Hex).
Qed.

(** X7. When a version is not a string (the fetcher returns the names as
    the answer has them), the sort step raises: [AttributeError] from the
    key of that version, or [TypeError] from the fallback when the key of
    an earlier version was not numeric. The updater logs the error and ends
    the process with status 1 before it searches the text; the file keeps
    its content. *)
Theorem version_not_a_string_is_fatal int path versions content w :
  files w !! path = Some content ->
  Exists (fun v => is_str v = false) versions ->
  exists e sort_log,
    ((e = AttributeError /\ sort_log = []) \/
     (e = TypeError /\ sort_log = [(WARNING, LexicalFallback)])) /\
    update_terraform_file int path versions w
    = (Exit 1,
       World (files w)
         (log w ++ sort_log ++ [(ERROR, UnexpectedError e)])).
Proof.
  intros Hfile Hex. unfold update_terraform_file. step_m.
  rewrite bool_decide_true by eauto. cbn [negb]. rewrite !Hfile.
  destruct (sort_versions_not_all int versions w Hex) as [-> | ->].
  - exists AttributeError, []. split; [by left|done].
  - exists TypeError, [(WARNING, LexicalFallback)]. split; [by right|].
    cbn [files log]. by rewrite <- app_assoc.
Qed.

Lemma version_not_a_string_is_fatal_witness :
  exists e sort_log,
    ((e = AttributeError /\ sort_log = []) \/
     (e = TypeError /\ sort_log = [(WARNING, LexicalFallback)])) /\
    update_terraform_file int_ascii tf_path [JStr (codes "1.x"); JNum 130]
      (World {[ tf_path := validation_block old_list old_message ]} [])
    = (Exit 1,
       World {[ tf_path := validation_block old_list old_message ]}
         ([] ++ sort_log ++ [(ERROR, UnexpectedError e)])).
Proof.
  refine (version_not_a_string_is_fatal int_ascii tf_path
            [JStr (codes "1.x"); JNum 130]
            (validation_block old_list old_message)
            (World {[ tf_path := validation_block old_list old_message ]} [])
            _ _).
  - vm_compute. reflexivity.
  - apply Exists_cons_tl, Exists_cons_hd. reflexivity.
Defined.

(** X8. A release that is supported but whose name is not a string, a
    number for one, passes the fetcher, which does not look at the names,
    and stops the run in the updater: for an answer of either shape with
    readable records, [main] ends the process with status 1 and every file
    is as it was. *)
Theorem name_not_a_string_aborts int argv data records w :
  recognized_shape data records ->
  Forall readable records ->
  Exists (fun r => is_active r = true /\
                   exists x, field k_name r = Some x /\ is_str x = false)
    records ->
  exists names w1 w',
    get_active_eks_versions (json_reply data) w = (Return names, w1) /\
    Exists (fun v => is_str v = false) names /\
    main int argv (json_reply data) w = (Exit 1, w') /\
    files w' = files w.
Proof.
  intros Hshape Hrec Hex.
  destruct (active_loop_readable records Hrec []) as (names & Hloop & Hnames).
  assert (Exists (fun v => is_str v = false) names) as Hbad.
  { clear -Hex Hnames. revert names Hnames.
    induction Hex as [r records (Hact & x & Hx & Hstr)|r records _ IH];
      intros names; cbn [List.filter].
    - rewrite Hact. cbn [map]. rewrite Hx.
      destruct names as [|name names]; [done|]. intros [= -> _].
      by constructor.
    - destruct (is_active r); [|apply IH].
      destruct names as [|name names]; [done|]. cbn [map].
      intros [= _ Hrest]. apply Exists_cons_tl. by apply IH. }
  destruct names as [|name names]; [by apply Exists_nil in Hbad|].
  assert (get_active_eks_versions (json_reply data) w
          = (Return (name :: names),
             World (files w)
               (log w ++ [(INFO, FetchingVersions);
                          (INFO, FoundActiveVersions (name :: names))])))
    as Hfetch.
  { unfold get_active_eks_versions, json_reply. step_m.
    unfold fetch. step_m. cbn [Z.eqb Pos.eqb negb].
    rewrite !(select_releases_recognized _ _ _ Hshape).
    cbn [py_iter]. rewrite Hloop. cbn [app files log].
    by rewrite <- !app_assoc. }
  eexists (name :: names), _. rewrite Hfetch.
  rewrite (main_runs_updater int argv _ w name names _ Hfetch).
  destruct (update_cases int (arg_path argv) (name :: names)
              (World (files w)
                 (log w ++ [(INFO, FetchingVersions);
                            (INFO, FoundActiveVersions (name :: names))])))
    as [(written & w' & Hup & [content Hsome] & _)|(w' & Hup & Hfiles)].
  - exfalso. revert Hup. unfold update_terraform_file. step_m.
    rewrite bool_decide_true by eauto. cbn [negb]. rewrite !Hsome.
    by destruct (sort_versions_not_all int (name :: names)
                   (World (files w)
                      (log w ++ [(INFO, FetchingVersions);
                                 (INFO, FoundActiveVersions (name :: names))]))
                   Hbad) as [-> | ->].
  - exists w'. by split_and!.
Qed.

Lemma name_not_a_string_aborts_witness :
  exists names w1 w',
    get_active_eks_versions
      (json_reply (JArr [JObj [(k_name, JNum 130); (k_isEol, JBool false)]]))
      (World {[ tf_path := validation_block old_list old_message ]} [])
    = (Return names, w1) /\
    Exists (fun v => is_str v = false) names /\
    main int_ascii []
      (json_reply (JArr [JObj [(k_name, JNum 130); (k_isEol, JBool false)]]))
      (World {[ tf_path := validation_block old_list old_message ]} [])
    = (Exit 1, w') /\
    files w' = {[ tf_path := validation_block old_list old_message ]}.
Proof.
  refine (name_not_a_string_aborts int_ascii []
            (JArr [JObj [(k_name, JNum 130); (k_isEol, JBool false)]])
            [JObj [(k_name, JNum 130); (k_isEol, JBool false)]]
            (World {[ tf_path := validation_block old_list old_message ]} [])
            _ _ _).
  - left. reflexivity.
  - repeat constructor. simpl. eauto.
  - apply Exists_cons_hd. split; [reflexivity|].
    exists (JNum 130). split; reflexivity.
Defined.

(** *** When the two replacements happen, and where *)

(** X9. The replacement of the list is done exactly when some [contains([]
    is followed on its line by a closing bracket, and then at the first
    such place only: the text replaced holds no closing bracket and no
    line feed, and what is before it and after it is kept. Otherwise
    nothing is returned. *)
Theorem list_replaced_only_at_first_list sorted_versions content :
  match replace_list sorted_versions content with
  | Some new_content =>
      exists pre inner post,
        content = pre ++ LIT ++ inner ++ c_rbracket :: post /\
        new_content
        = pre ++ LIT ++ new_list_str sorted_versions ++ c_rbracket :: post /\
        Forall (fun x => x <> c_rbracket /\ x <> c_newline) inner /\
        forall pre' inner' post',
          list_at content pre' inner' post' -> length pre <= length pre'
  | None => ~ has_list content
  end.
Proof.
  destruct (replace_list sorted_versions content) as [new_content|] eqn:Hr.
  - apply replace_list_Some in Hr
      as (pre & inner & post & ([Heq Hnl] & Hbr & Hmin) & ->).
    exists pre, inner, post. split_and!; try done.
    apply Forall_and. by split.
  - by apply replace_list_None in Hr.
Qed.

(** X10. The replacement of the message is done exactly when the text has
    [error_message], white space, an equals sign; then at the first such
    place only, on the text from the end of the white space that follows
    the equals sign to the end of that line; what is before and after is
    kept. Otherwise nothing is returned. *)
Theorem message_replaced_only_at_first_assignment sorted_versions text :
  match replace_error_message sorted_versions text with
  | Some updated =>
      exists pre ws1 ws2 value rest,
        value_at text pre ws1 ws2 value rest /\
        updated = pre ++ EM ++ ws1 ++ c_equals :: ws2
                  ++ new_error_msg_val sorted_versions ++ rest /\
        forall pre' ws' rest',
          assignment_at text pre' ws' rest' -> length pre <= length pre'
  | None => ~ has_assignment text
  end.
Proof.
  destruct (replace_error_message sorted_versions text) as [updated|] eqn:Hr.
  - apply replace_error_message_Some in Hr
      as (pre & ws1 & ws2 & value & rest & [Hat Hmin] & ->).
    by exists pre, ws1, ws2, value, rest.
  - by apply replace_error_message_None in Hr.
Qed.

(** *** Reading back what was written *)

(** The text between two positions, [text[a:b]]. *)
Definition slice (text : str) (a b : nat) : str := take (b - a) (drop a text).

Lemma slice_app (a b c : str) :
  slice (a ++ b ++ c) (length a) (length a + length b) = b.
Proof.
  unfold slice. rewrite drop_app_length.
  replace (length a + length b - length a) with (length b) by lia.
  by rewrite take_app_length.
Qed.

(** X11. When no version holds a closing bracket or a line feed, the text
    with the list replaced has its first list where the replaced one was,
    and group 1 of the pattern reads back exactly the text written: the
    versions between double quotes, separated by a comma and a space. *)
Theorem written_list_reads_back sorted_versions content new_content :
  Forall (Forall plain) sorted_versions ->
  replace_list sorted_versions content = Some new_content ->
  exists m a b m',
    search condition_regex content = Some m /\ span m 1 = (a, b) /\
    search condition_regex new_content = Some m' /\
    span m' 1 = (a, a + length (new_list_str sorted_versions)) /\
    slice new_content a (a + length (new_list_str sorted_versions))
    = new_list_str sorted_versions.
Proof.
  intros Hplain Hr.
  apply replace_list_Some in Hr as (pre & inner & post & Hfirst & ->).
  pose proof (replaced_list_is_first content pre inner post
                (new_list_str sorted_versions) post Hfirst
                (new_list_str_plain _ Hplain)) as Hfirst'.
  unfold search. rewrite !search_condition_from.
  rewrite (first_list_leftmost _ _ _ _ Hfirst).
  rewrite (first_list_leftmost _ _ _ _ Hfirst').
  eexists _, _, _, _. split_and!; try reflexivity.
  change 10 with (length LIT). rewrite <- length_app.
  rewrite (app_assoc pre LIT). apply slice_app.
Qed.

Lemma written_list_reads_back_witness :
  exists m a b m',
    search condition_regex (validation_block old_list old_message) = Some m /\
    span m 1 = (a, b) /\
    search condition_regex (validation_block new_list old_message) = Some m' /\
    span m' 1 = (a, a + length (new_list_str fetched)) /\
    slice (validation_block new_list old_message) a
      (a + length (new_list_str fetched))
    = new_list_str fetched.
Proof.
  apply (written_list_reads_back fetched
           (validation_block old_list old_message)
           (validation_block new_list old_message)).
  - repeat constructor; discriminate.
  - vm_compute. reflexivity.
Defined.

Lemma new_error_msg_val_one_line sorted_versions :
  Forall (Forall (fun x => x <> c_newline)) sorted_versions ->
  Forall (fun x => x <> c_newline) (new_error_msg_val sorted_versions).
Proof.
  intros Hs. unfold new_error_msg_val.
  apply quoted_Forall; [discriminate|].
  apply Forall_app. split; [repeat constructor; discriminate|].
  apply Forall_app. split; [|repeat constructor; discriminate].
  apply join_Forall; [repeat constructor; discriminate|done].
Qed.

(** X12. When no version holds a line feed, the text with the message
    replaced has its first assignment where the replaced one was, and
    group 2 of the pattern reads back exactly the sentence written. *)
Theorem written_message_reads_back sorted_versions text updated :
  Forall (Forall (fun x => x <> c_newline)) sorted_versions ->
  replace_error_message sorted_versions text = Some updated ->
  exists m a b m',
    search error_msg_regex text = Some m /\ span m 2 = (a, b) /\
    search error_msg_regex updated = Some m' /\
    span m' 2 = (a, a + length (new_error_msg_val sorted_versions)) /\
    slice updated a (a + length (new_error_msg_val sorted_versions))
    = new_error_msg_val sorted_versions.
Proof.
  intros Hline Hr.
  apply replace_error_message_Some in Hr
    as (pre & ws1 & ws2 & value & rest & Hfirst & ->).
  destruct (new_error_msg_val_head sorted_versions) as [Hhead Hne].
  pose proof (replaced_value_is_first text pre ws1 ws2 value rest
                (new_error_msg_val sorted_versions) Hfirst
                (new_error_msg_val_one_line _ Hline) Hhead Hne) as Hfirst'.
  unfold search. rewrite !search_error_from.
  rewrite (first_value_leftmost _ _ _ _ _ _ Hfirst).
  rewrite (first_value_leftmost _ _ _ _ _ _ Hfirst').
  eexists _, _, _, _. split_and!; try reflexivity.
  replace (length pre + (13 + length ws1 + 1 + length ws2))
    with (length (pre ++ EM ++ ws1 ++ c_equals :: ws2)).
  2:{ repeat rewrite length_app. cbn [length]. change (length EM) with 13.
      lia. }
  replace (pre ++ EM ++ ws1 ++ c_equals :: ws2
           ++ new_error_msg_val sorted_versions ++ rest)
    with ((pre ++ EM ++ ws1 ++ c_equals :: ws2)
          ++ new_error_msg_val sorted_versions ++ rest)
    by (by repeat rewrite <- app_assoc).
  apply slice_app.
Qed.

Lemma written_message_reads_back_witness :
  exists m a b m',
    search error_msg_regex (validation_block new_list old_message) = Some m /\
    span m 2 = (a, b) /\
    search error_msg_regex (validation_block new_list new_message) = Some m' /\
    span m' 2 = (a, a + length (new_error_msg_val fetched)) /\
    slice (validation_block new_list new_message) a
      (a + length (new_error_msg_val fetched))
    = new_error_msg_val fetched.
Proof.
  apply (written_message_reads_back fetched
           (validation_block new_list old_message)
           (validation_block new_list new_message)).
  - repeat constructor; discriminate.
  - vm_compute. reflexivity.
Defined.

(** *** The lines of the file *)








(** *** The list and the message *)

Definition without_quotes (text : str) : str :=
  List.filter (fun x => negb (N.eqb x c_dquote)) text.

Lemma without_quotes_app a b :
  without_quotes (a ++ b) = without_quotes a ++ without_quotes b.
Proof. apply List.filter_app. Qed.

Lemma without_quotes_id a :
  Forall (fun x => x <> c_dquote) a -> without_quotes a = a.
Proof.
  unfold without_quotes. induction 1 as [|x a Hx _ IH]; [done|].
  cbn [List.filter]. destruct (N.eqb_spec x c_dquote); [done|].
  cbn [negb]. by rewrite IH.
Qed.

Lemma without_quotes_quoted v :
  Forall (fun x => x <> c_dquote) v -> without_quotes (quoted v) = v.
Proof.
  intros Hv. unfold quoted.
  change (c_dquote :: v ++ [c_dquote]) with ([c_dquote] ++ v ++ [c_dquote]).
  rewrite !without_quotes_app, (without_quotes_id v Hv).
  cbn. by rewrite app_nil_r.
Qed.

(** X14. When no version holds a double quote, the sentence of the message
    names the versions that the list holds, in the same order: between its
    fixed beginning and the final full stop it is the text of the list
    with the double quotes removed. *)
Theorem message_names_the_list sorted_versions :
  Forall (Forall (fun x => x <> c_dquote)) sorted_versions ->
  new_error_msg_val sorted_versions
  = quoted (codes "The cluster_version must be one of: "
            ++ without_quotes (new_list_str sorted_versions) ++ codes ".").
Proof.
  intros Hs. unfold new_error_msg_val. do 3 f_equal. unfold new_list_str.
  induction Hs as [|v vs Hv Hvs IH]; [done|].
  destruct vs as [|v' vs]; cbn [map join] in IH |- *.
  - by rewrite without_quotes_quoted.
  - rewrite !without_quotes_app, without_quotes_quoted by done.
    rewrite <- IH. by rewrite without_quotes_id by (repeat constructor; done).
Qed.

Lemma message_names_the_list_witness :
  new_error_msg_val fetched
  = quoted (codes "The cluster_version must be one of: "
            ++ without_quotes (new_list_str fetched) ++ codes ".").
Proof.
  apply (message_names_the_list fetched).
  repeat constructor; discriminate.
Defined.

(** *** A whole run *)




(** *** The order of versions with the same key *)

Lemma key_lt_irrefl k : key_lt k k = false.
Proof.
  destruct (key_lt k k) eqn:Hk; [|done].
  by rewrite (key_lt_asym k k Hk) in Hk.
Qed.

Definition has_key (k k' : list Z) : bool := bool_decide (k' = k).

Lemma filter_keyed int (k : list Z) (l : list (list Z * str)) :
  Forall (fun p => numeric_key int (snd p) = Some (fst p)) l ->
  List.filter (fun v => bool_decide (numeric_key int v = Some k)) (map snd l)
  = map snd (List.filter (fun p => has_key k (fst p)) l).
Proof.
  induction 1 as [|[k' v] l Hp _ IH]; [done|].
  cbn [map List.filter fst snd] in *. rewrite Hp, IH. unfold has_key.
  destruct (decide (k' = k)) as [->|Hne].
  - by rewrite !bool_decide_true.
  - rewrite !bool_decide_false; [done|done|congruence].
Qed.

(** X16. The numeric sort is stable: versions with the same sequence of
    integers, as 1.9 and 1.09, come out in the order in which they came
    in. *)
Theorem equal_keys_keep_their_order int vs keys k :
  mapM (numeric_key int) vs = Some keys ->
  List.filter (fun v => bool_decide (numeric_key int v = Some k))
    (sort_strings int vs)
  = List.filter (fun v => bool_decide (numeric_key int v = Some k)) vs.
Proof.
  intros Hkeys. unfold sort_strings, sorted. rewrite Hkeys.
  assert (Forall (fun p => numeric_key int (snd p) = Some (fst p))
            (zip keys vs)) as Hzip.
  { apply mapM_Some_1 in Hkeys. clear -Hkeys.
    induction Hkeys; simpl; by constructor. }
  rewrite filter_keyed by (by rewrite sorted_pairs_perm).
  rewrite (sorted_pairs_stable key_lt (has_key k)).
  2:{ unfold has_key.
      intros x y ->%bool_decide_eq_true ->%bool_decide_eq_true.
      apply key_lt_irrefl. }
  rewrite <- (filter_keyed int) by done. rewrite snd_zip; [done|].
  apply length_mapM in Hkeys. lia.
Qed.

Lemma equal_keys_keep_their_order_witness :
  List.filter
    (fun v => bool_decide (numeric_key int_ascii v = Some [1; 9]%Z))
    (sort_strings int_ascii
       [codes "1.9"; codes "1.10"; codes "1.09"; codes "1.8"])
  = [codes "1.9"; codes "1.09"].
Proof.
  rewrite (equal_keys_keep_their_order int_ascii
             [codes "1.9"; codes "1.10"; codes "1.09"; codes "1.8"]
             [[1; 9]; [1; 10]; [1; 9]; [1; 8]]%Z [1; 9]%Z).
  - vm_compute. reflexivity.
  - vm_compute. reflexivity.
Defined.
